(** * tcpinfo: connection state names, congestion-control options and
      the JSON view of [Info]

    A shallow embedding of [option.go] (package [tcpinfo]).

    Conventions of the embedding
    - a Go [string] is a sequence of bytes: Rocq's [string];
    - a Go [[]byte] is a possibly-nil slice: [option (list byte)], where
      [None] is the nil slice;
    - a Go [int] is a [Z] (no arithmetic is performed on it here);
    - a Go [map[K]V] is a [gmap K V];
    - a Go function returning [(T, error)] returns a pair whose second
      component is [None] for a nil error;
    - a pointer or an interface value that may be nil is an [option],
      and a call that dereferences it has an [outcome]: it returns, or
      it panics. *)

From Stdlib Require Import ZArith Strings.String Strings.Byte.
From stdpp Require Import base option list gmap strings sorting.

Local Open Scope string_scope.
Local Open Scope Z_scope.

(** ** Error values (lines 15-17) *)

(** The package declares two error values.  An [error] met in this file
    is one of them, or comes out of [encoding/json]. *)
Inductive error : Type :=
| errOpNoSupport
| errBufferTooShort
| jsonMarshalerError (msg : string).

Definition error_message (e : error) : string :=
  match e with
  | errOpNoSupport => "operation not supported"
  | errBufferTooShort => "buffer too short"
  | jsonMarshalerError msg => msg
  end.

Definition is_sentinel (e : error) : bool :=
  match e with
  | errOpNoSupport | errBufferTooShort => true
  | jsonMarshalerError _ => false
  end.

#[global] Instance error_eq_dec : EqDecision error.
Proof. solve_decision. Defined.

(** ** Byte slices *)

Abbreviation slice := (option (list byte)).

Definition len (b : slice) : nat :=
  match b with
  | None => O
  | Some l => length l
  end.

Definition elems (b : slice) : list byte := default [] b.

(** ** Calls that may panic *)

Inductive outcome (A : Type) : Type :=
| Returns (a : A)
| Panics.

Arguments Returns {A} a.
Arguments Panics {A}.

#[global] Instance outcome_ret : MRet outcome := @Returns.

#[global] Instance outcome_bind : MBind outcome :=
  λ A B f o, match o with
             | Returns a => f a
             | Panics => Panics
             end.

(** The error a call returned, if it returned one. *)
Definition returned_error {A : Type} (o : outcome (A * option error))
  : option error :=
  match o with
  | Returns (_, err) => err
  | Panics => None
  end.

(** ** Connection states (lines 23-62) *)

Module State.

Definition t := Z.

Definition Unknown : t := 0.
Definition Closed : t := 1.
Definition Listen : t := 2.
Definition SynSent : t := 3.
Definition SynReceived : t := 4.
Definition Established : t := 5.
Definition FinWait1 : t := 6.
Definition FinWait2 : t := 7.
Definition CloseWait : t := 8.
Definition LastAck : t := 9.
Definition Closing : t := 10.
Definition TimeWait : t := 11.

Definition defined : list t :=
  [Unknown; Closed; Listen; SynSent; SynReceived; Established;
   FinWait1; FinWait2; CloseWait; LastAck; Closing; TimeWait].

Definition states : gmap Z string :=
  list_to_map
    [(Unknown, "unknown");
     (Closed, "closed");
     (Listen, "listen");
     (SynSent, "syn-sent");
     (SynReceived, "syn-received");
     (Established, "established");
     (FinWait1, "fin-wait-1");
     (FinWait2, "fin-wait-2");
     (CloseWait, "close-wait");
     (LastAck, "last-ack");
     (Closing, "closing");
     (TimeWait, "time-wait")].

Definition String (st : t) : string :=
  match states !! st with
  | None => "<nil>"
  | Some s => s
  end.

End State.

(** ** Congestion-control options (lines 143-181) *)

Record CCInfo : Type := { Raw : slice }.

Definition CCAlgorithm := string.

(** The values of [tcpopt.Option] this file builds. *)
Inductive tcpopt_Option : Type :=
| OptCCInfo (cci : CCInfo)
| OptCCAlgorithm (cca : CCAlgorithm).

(** The [Marshal] method of [tcpopt.Option]. *)
Class Marshaler (A : Type) := Marshal : A → slice * option error.

#[global] Instance CCInfo_Marshal : Marshaler CCInfo :=
  λ cci, (Raw cci, None).

(** Line 158 as it is called: the receiver is a pointer, and reading
    [cci.Raw] through a nil pointer panics. *)
Definition CCInfo_Marshal_call (cci : option CCInfo)
  : outcome (slice * option error) :=
  match cci with
  | None => Panics
  | Some cci => Returns (Raw cci, None)
  end.

Definition parseCCInfo (b : slice) : tcpopt_Option * option error :=
  (OptCCInfo {| Raw := b |}, None).

#[global] Instance CCAlgorithm_Marshal : Marshaler CCAlgorithm :=
  λ cca, if decide (cca = "") then (None, None)
         else (Some (list_byte_of_string cca), None).

Definition parseCCAlgorithm (b : slice) : tcpopt_Option * option error :=
  (OptCCAlgorithm (string_of_list_byte (elems b)), None).

#[global] Instance tcpopt_Option_Marshal : Marshaler tcpopt_Option :=
  λ o, match o with
       | OptCCInfo cci => Marshal cci
       | OptCCAlgorithm cca => Marshal cca
       end.

(** ** JSON values *)

(** What [encoding/json] writes, up to the JSON value the text denotes.
    An object is a finite map: its members are unordered and its keys
    distinct. *)
#[local] Unset Elimination Schemes.
Inductive json : Type :=
| JNull
| JBool (b : bool)
| JNumber (n : Z)
| JString (s : string)
| JArray (l : list json)
| JObject (m : gmap string json).
#[local] Set Elimination Schemes.

(** The JSON value of an encoding that succeeded. *)
Definition encoded (r : string + json) : option json :=
  match r with
  | inl _ => None
  | inr j => Some j
  end.

(** ** The normalized record (lines 64-95) *)

Record FlowControl : Type := { ReceiverWindow : Z }.

Record CongestionControl : Type :=
  { SenderSSThreshold : Z;
    ReceiverSSThreshold : Z;
    SenderWindow : Z }.

Module Info.
Section Info.
Context {Option SysInfo : Type}.

Record t : Type :=
  { State : State.t;
    Options : list Option;
    PeerOptions : list Option;
    SenderMSS : Z;
    ReceiverMSS : Z;
    RTT : Z;
    RTTVar : Z;
    RTO : Z;
    ATO : Z;
    LastDataSent : Z;
    LastDataReceived : Z;
    LastAckReceived : Z;
    FlowControl : option FlowControl;
    CongestionControl : option CongestionControl;
    Sys : option SysInfo }.
End Info.
End Info.

(** ** Algorithm-specific information (lines 183-200) *)

(** The interface [CCAlgorithmInfo]: a record that names the algorithm it
    belongs to. *)
Class CCAlgorithmInfo (R : Type) := Algorithm : R → string.

Section ParseCCAlgorithmInfo.
Context {R : Type}.

(** [parseCCAlgorithmInfo] is declared per platform, outside this file. *)
Variable parseCCAlgorithmInfo : string → slice → option R * option error.

Definition ParseCCAlgorithmInfo (name : string) (b : slice)
  : option R * option error :=
  let '(ccai, err) := parseCCAlgorithmInfo name b in
  match err with
  | Some e => (None, Some e)
  | None => (ccai, None)
  end.

End ParseCCAlgorithmInfo.

Section Registry.
Context {R : Type}.

(** The decoders, keyed by algorithm name; a decoder rejects a buffer
    that is too short for the layout it reads. *)
Variable parsers : gmap string (slice → option R).

(** Modelled from the spec: the platform's [parseCCAlgorithmInfo] and its
    table of decoders are not part of [option.go].  Section 4.4: it
    looks up the decoder registered for the algorithm name and invokes
    it on the raw bytes to produce the algorithm's record, and fails
    with "operation not supported" if no decoder is registered for that
    name.  Section 7: a buffer shorter than what is required is
    surfaced as "buffer too short". *)
Definition parseCCAlgorithmInfo (name : string) (b : slice)
  : option R * option error :=
  match parsers !! name with
  | None => (None, Some errOpNoSupport)
  | Some decode =>
      match decode b with
      | None => (None, Some errBufferTooShort)
      | Some ccai => (Some ccai, None)
      end
  end.

End Registry.

(** ** Serialization of [Info] (lines 103-141) *)

(** [Option] and [SysInfo] are declared outside this file.  An option is
    an interface value, used here through [opt.Kind().String()] only. *)
Class OptionKind (Option : Type) := Kind_String : Option → string.

(** How [encoding/json] renders a value of a type declared elsewhere
    depends on that type; the encoding may fail, with a message. *)
Class Encodable (A : Type) := to_json : A → string + json.

Section MarshalJSON.
Context {Option SysInfo : Type}.
Context `{!OptionKind Option, !Encodable Option, !Encodable SysInfo}.

(** What a slot of [raw : map[string]interface{}] holds. *)
Inductive value : Type :=
| VString (s : string)
| VOptions (opts : gmap string Option)
| VMaxSegSize (n : Z)
| VDuration (d : Z)
| VFlowControl (p : option FlowControl)
| VCongestionControl (p : option CongestionControl)
| VSysInfo (p : option SysInfo).

(** The loops of lines 110-112 and 117-119, started on the empty map of
    line 109 (116). *)
Definition collect (opts : list Option) : gmap string Option :=
  foldl (λ m opt, <[Kind_String opt := opt]> m) ∅ opts.

(** Lines 106-139: the map handed to [json.Marshal]. *)
Definition raw (i : @Info.t Option SysInfo) : gmap string value :=
  let raw : gmap string value := ∅ in
  let raw := <["state" := VString (State.String (Info.State i))]> raw in
  let raw :=
    if (0 <? length (Info.Options i))%nat
    then <["opts" := VOptions (collect (Info.Options i))]> raw
    else raw in
  let raw :=
    if (0 <? length (Info.PeerOptions i))%nat
    then <["peer_opts" := VOptions (collect (Info.PeerOptions i))]> raw
    else raw in
  let raw := <["snd_mss" := VMaxSegSize (Info.SenderMSS i)]> raw in
  let raw := <["rcv_mss" := VMaxSegSize (Info.ReceiverMSS i)]> raw in
  let raw := <["rtt" := VDuration (Info.RTT i)]> raw in
  let raw := <["rttvar" := VDuration (Info.RTTVar i)]> raw in
  let raw := <["rto" := VDuration (Info.RTO i)]> raw in
  let raw := <["ato" := VDuration (Info.ATO i)]> raw in
  let raw := <["last_data_sent" := VDuration (Info.LastDataSent i)]> raw in
  let raw := <["last_data_rcvd" := VDuration (Info.LastDataReceived i)]> raw in
  let raw := <["last_ack_rcvd" := VDuration (Info.LastAckReceived i)]> raw in
  let raw :=
    match Info.FlowControl i with
    | Some _ => <["flow_ctl" := VFlowControl (Info.FlowControl i)]> raw
    | None => raw
    end in
  let raw :=
    match Info.CongestionControl i with
    | Some _ =>
        <["cong_ctl" := VCongestionControl (Info.CongestionControl i)]> raw
    | None => raw
    end in
  let raw :=
    match Info.Sys i with
    | Some _ => <["sys" := VSysInfo (Info.Sys i)]> raw
    | None => raw
    end in
  raw.

(** The values that [raw] can hold: in particular no nil pointer. *)
Inductive raw_value (i : @Info.t Option SysInfo) : value → Prop :=
| raw_string s : raw_value i (VString s)
| raw_options : raw_value i (VOptions (collect (Info.Options i)))
| raw_peer_options :
    raw_value i (VOptions (collect (Info.PeerOptions i)))
| raw_mss n : raw_value i (VMaxSegSize n)
| raw_duration d : raw_value i (VDuration d)
| raw_flow_control fc : raw_value i (VFlowControl (Some fc))
| raw_congestion_control cc : raw_value i (VCongestionControl (Some cc))
| raw_sys_info sys : Info.Sys i = Some sys → raw_value i (VSysInfo (Some sys)).

(** *** [json.Marshal] on the values above

    A map is written as an object, its members in the order of their
    keys; the first member that cannot be encoded aborts the encoding.
    A struct is written as an object of its tagged fields, a nil
    pointer as [null]. *)

Definition key_le {V : Type} (a b : string * V) : Prop := String.le a.1 b.1.

#[global] Instance key_le_dec {V : Type} : RelDecision (@key_le V).
Proof. intros a b. unfold key_le. apply _. Defined.

Definition members {V : Type} (m : gmap string V) : list (string * V) :=
  merge_sort key_le (map_to_list m).

Fixpoint encode_members {V : Type} (enc : V → string + json)
    (kvs : list (string * V)) : string + list (string * json) :=
  match kvs with
  | [] => inr []
  | (k, v) :: kvs =>
      match enc v with
      | inl msg => inl msg
      | inr j =>
          match encode_members enc kvs with
          | inl msg => inl msg
          | inr js => inr ((k, j) :: js)
          end
      end
  end.

Definition encode_map {V : Type} (enc : V → string + json)
    (m : gmap string V) : string + json :=
  match encode_members enc (members m) with
  | inl msg => inl msg
  | inr js => inr (JObject (list_to_map js))
  end.

Definition encode_FlowControl (fc : FlowControl) : json :=
  JObject {[ "rcv_wnd" := JNumber (ReceiverWindow fc) ]}.

Definition encode_CongestionControl (cc : CongestionControl) : json :=
  JObject (<["snd_ssthresh" := JNumber (SenderSSThreshold cc)]>
          (<["rcv_ssthresh" := JNumber (ReceiverSSThreshold cc)]>
          (<["snd_cwnd" := JNumber (SenderWindow cc)]> ∅))).

Definition encode_value (v : value) : string + json :=
  match v with
  | VString s => inr (JString s)
  | VOptions opts => encode_map to_json opts
  | VMaxSegSize n => inr (JNumber n)
  | VDuration d => inr (JNumber d)
  | VFlowControl None => inr JNull
  | VFlowControl (Some fc) => inr (encode_FlowControl fc)
  | VCongestionControl None => inr JNull
  | VCongestionControl (Some cc) => inr (encode_CongestionControl cc)
  | VSysInfo None => inr JNull
  | VSysInfo (Some sys) => to_json sys
  end.

Definition json_Marshal (m : gmap string value) : option json * option error :=
  match encode_map encode_value m with
  | inl msg => (None, Some (jsonMarshalerError msg))
  | inr doc => (Some doc, None)
  end.

(** Line 140.  The bytes returned are taken up to the JSON value they
    denote. *)
Definition MarshalJSON (i : @Info.t Option SysInfo) : option json * option error :=
  json_Marshal (raw i).

(** In the words of section 4.5: the option that a mapping keyed by kind
    name keeps for the name [k] when later options overwrite earlier
    ones.  To be compared with [collect]. *)
Definition last_of_kind (k : string) (opts : list Option) : option Option :=
  last (filter (λ opt, Kind_String opt = k) opts).

End MarshalJSON.

(** ** [MarshalJSON] as it is called (lines 105-141)

    The receiver is a pointer and the elements of [Options] and
    [PeerOptions] are interface values: each of them may be nil.  An
    [Info] whose options may be nil is an [Info.t] over [option Option];
    reading a field through a nil receiver and calling [Kind] on a nil
    option panic. *)

Section MarshalJSON_call.
Context {Option SysInfo : Type}.
Context `{!OptionKind Option, !Encodable Option, !Encodable SysInfo}.

(** The loops of lines 110-112 and 117-119. *)
Definition collect_call (opts : list (option Option))
  : outcome (gmap string Option) :=
  foldl (λ acc opt,
           m ← acc;
           match opt with
           | None => Panics
           | Some opt => Returns (<[Kind_String opt := opt]> m)
           end)
        (Returns ∅) opts.

(** Lines 106-139. *)
Definition raw_call (i : @Info.t (option Option) SysInfo)
  : outcome (gmap string (@value Option SysInfo)) :=
  let raw : gmap string value := ∅ in
  let raw := <["state" := VString (State.String (Info.State i))]> raw in
  raw ←
    (if (0 <? length (Info.Options i))%nat
     then opts ← collect_call (Info.Options i);
          Returns (<["opts" := VOptions opts]> raw)
     else Returns raw);
  raw ←
    (if (0 <? length (Info.PeerOptions i))%nat
     then opts ← collect_call (Info.PeerOptions i);
          Returns (<["peer_opts" := VOptions opts]> raw)
     else Returns raw);
  let raw := <["snd_mss" := VMaxSegSize (Info.SenderMSS i)]> raw in
  let raw := <["rcv_mss" := VMaxSegSize (Info.ReceiverMSS i)]> raw in
  let raw := <["rtt" := VDuration (Info.RTT i)]> raw in
  let raw := <["rttvar" := VDuration (Info.RTTVar i)]> raw in
  let raw := <["rto" := VDuration (Info.RTO i)]> raw in
  let raw := <["ato" := VDuration (Info.ATO i)]> raw in
  let raw := <["last_data_sent" := VDuration (Info.LastDataSent i)]> raw in
  let raw := <["last_data_rcvd" := VDuration (Info.LastDataReceived i)]> raw in
  let raw := <["last_ack_rcvd" := VDuration (Info.LastAckReceived i)]> raw in
  let raw :=
    match Info.FlowControl i with
    | Some _ => <["flow_ctl" := VFlowControl (Info.FlowControl i)]> raw
    | None => raw
    end in
  let raw :=
    match Info.CongestionControl i with
    | Some _ =>
        <["cong_ctl" := VCongestionControl (Info.CongestionControl i)]> raw
    | None => raw
    end in
  let raw :=
    match Info.Sys i with
    | Some _ => <["sys" := VSysInfo (Info.Sys i)]> raw
    | None => raw
    end in
  Returns raw.

(** Lines 105-141, on a receiver that may be nil. *)
Definition MarshalJSON_call (i : option (@Info.t (option Option) SysInfo))
  : outcome (option json * option error) :=
  match i with
  | None => Panics
  | Some i => raw ← raw_call i; Returns (json_Marshal raw)
  end.

(** An [Info] none of whose options is nil, among those whose options
    may be. *)
Definition lift (i : @Info.t Option SysInfo) : @Info.t (option Option) SysInfo :=
  {| Info.State := Info.State i;
     Info.Options := Some <$> Info.Options i;
     Info.PeerOptions := Some <$> Info.PeerOptions i;
     Info.SenderMSS := Info.SenderMSS i;
     Info.ReceiverMSS := Info.ReceiverMSS i;
     Info.RTT := Info.RTT i;
     Info.RTTVar := Info.RTTVar i;
     Info.RTO := Info.RTO i;
     Info.ATO := Info.ATO i;
     Info.LastDataSent := Info.LastDataSent i;
     Info.LastDataReceived := Info.LastDataReceived i;
     Info.LastAckReceived := Info.LastAckReceived i;
     Info.FlowControl := Info.FlowControl i;
     Info.CongestionControl := Info.CongestionControl i;
     Info.Sys := Info.Sys i |}.

(** The options of an [Info] that are not nil. *)
Definition non_nil (i : @Info.t (option Option) SysInfo) : @Info.t Option SysInfo :=
  {| Info.State := Info.State i;
     Info.Options := omap id (Info.Options i);
     Info.PeerOptions := omap id (Info.PeerOptions i);
     Info.SenderMSS := Info.SenderMSS i;
     Info.ReceiverMSS := Info.ReceiverMSS i;
     Info.RTT := Info.RTT i;
     Info.RTTVar := Info.RTTVar i;
     Info.RTO := Info.RTO i;
     Info.ATO := Info.ATO i;
     Info.LastDataSent := Info.LastDataSent i;
     Info.LastDataReceived := Info.LastDataReceived i;
     Info.LastAckReceived := Info.LastAckReceived i;
     Info.FlowControl := Info.FlowControl i;
     Info.CongestionControl := Info.CongestionControl i;
     Info.Sys := Info.Sys i |}.

End MarshalJSON_call.

(** ** Auxiliary notions for the properties of [MarshalJSON] *)

Section keys.
Context {Option SysInfo : Type}.

(** The names under which lines 107-139 store a value, in the order of
    the assignments. *)
Definition keys (i : @Info.t Option SysInfo) : list string :=
  (["state"]
   ++ (if (0 <? length (Info.Options i))%nat then ["opts"] else [])
   ++ (if (0 <? length (Info.PeerOptions i))%nat then ["peer_opts"] else [])
   ++ ["snd_mss"; "rcv_mss"; "rtt"; "rttvar"; "rto"; "ato";
       "last_data_sent"; "last_data_rcvd"; "last_ack_rcvd"]
   ++ (if Info.FlowControl i is Some _ then ["flow_ctl"] else [])
   ++ (if Info.CongestionControl i is Some _ then ["cong_ctl"] else [])
   ++ (if Info.Sys i is Some _ then ["sys"] else []))%list.

(** The same [Info] with another sequence of options. *)
Definition with_Options (i : @Info.t Option SysInfo) (opts : list Option)
  : @Info.t Option SysInfo :=
  {| Info.State := Info.State i;
     Info.Options := opts;
     Info.PeerOptions := Info.PeerOptions i;
     Info.SenderMSS := Info.SenderMSS i;
     Info.ReceiverMSS := Info.ReceiverMSS i;
     Info.RTT := Info.RTT i;
     Info.RTTVar := Info.RTTVar i;
     Info.RTO := Info.RTO i;
     Info.ATO := Info.ATO i;
     Info.LastDataSent := Info.LastDataSent i;
     Info.LastDataReceived := Info.LastDataReceived i;
     Info.LastAckReceived := Info.LastAckReceived i;
     Info.FlowControl := Info.FlowControl i;
     Info.CongestionControl := Info.CongestionControl i;
     Info.Sys := Info.Sys i |}.

End keys.

(** ** Sample values *)

Module Sample.

(** An option seen through its methods: the name of its kind, and what
    [encoding/json] makes of it. *)
Record option_value : Type :=
  { kind_name : string;
    rendering : string + json }.

#[global] Instance option_value_kind : OptionKind option_value := kind_name.
#[global] Instance option_value_json : Encodable option_value := rendering.

(** A platform block with one counter. *)
Record sys_info : Type := { retransmits : Z }.

#[global] Instance sys_info_json : Encodable sys_info :=
  λ sys, inr (JObject {[ "retransmits" := JNumber (retransmits sys) ]}).

Definition wscale (n : Z) : option_value :=
  {| kind_name := "wscale"; rendering := inr (JNumber n) |}.

Definition sack (b : bool) : option_value :=
  {| kind_name := "sack"; rendering := inr (JBool b) |}.

(** An option whose own [MarshalJSON] method returns an error. *)
Definition broken : option_value :=
  {| kind_name := "mss"; rendering := inl "json: error calling MarshalJSON" |}.

Definition established : @Info.t option_value sys_info :=
  {| Info.State := State.Established;
     Info.Options := [wscale 7; sack true; wscale 9];
     Info.PeerOptions := [];
     Info.SenderMSS := 1460;
     Info.ReceiverMSS := 536;
     Info.RTT := 25000000;
     Info.RTTVar := 5000000;
     Info.RTO := 204000000;
     Info.ATO := 40000000;
     Info.LastDataSent := 0;
     Info.LastDataReceived := 0;
     Info.LastAckReceived := 0;
     Info.FlowControl := Some {| ReceiverWindow := 65535 |};
     Info.CongestionControl := None;
     Info.Sys := Some {| retransmits := 2 |} |}.

Definition unencodable : @Info.t option_value sys_info :=
  {| Info.State := State.Established;
     Info.Options := [broken];
     Info.PeerOptions := [];
     Info.SenderMSS := 1460;
     Info.ReceiverMSS := 536;
     Info.RTT := 0;
     Info.RTTVar := 0;
     Info.RTO := 0;
     Info.ATO := 0;
     Info.LastDataSent := 0;
     Info.LastDataReceived := 0;
     Info.LastAckReceived := 0;
     Info.FlowControl := None;
     Info.CongestionControl := None;
     Info.Sys := None |}.

(** A record of an algorithm, and a table with one decoder. *)
Record algorithm_info : Type :=
  { algorithm : string;
    payload : slice }.

#[global] Instance algorithm_info_CCAlgorithmInfo : CCAlgorithmInfo algorithm_info :=
  algorithm.

Definition parsers : gmap string (slice → option algorithm_info) :=
  {[ "bbr" := λ b, if decide (len b = 0%nat) then None
                   else Some {| algorithm := "bbr"; payload := b |} ]}.

(** A platform function that hands back what it could read of a short
    buffer together with the error. *)
Definition lenient (name : string) (b : slice)
  : option algorithm_info * option error :=
  (Some {| algorithm := name; payload := b |},
   if decide (len b = 0%nat) then Some errBufferTooShort else None).

(** An option of the kind "wscale" that cannot be encoded. *)
Definition broken_wscale : option_value :=
  {| kind_name := "wscale"; rendering := inl "json: error calling MarshalJSON" |}.

(** Two options of the same kind, the first of which cannot be
    encoded. *)
Definition shadowed : @Info.t option_value sys_info :=
  with_Options established [broken_wscale; wscale 9].

(** An [Info] whose second option is nil. *)
Definition with_nil : @Info.t (option option_value) sys_info :=
  {| Info.State := State.Established;
     Info.Options := [Some (wscale 7); None];
     Info.PeerOptions := [];
     Info.SenderMSS := 1460;
     Info.ReceiverMSS := 536;
     Info.RTT := 0;
     Info.RTTVar := 0;
     Info.RTO := 0;
     Info.ATO := 0;
     Info.LastDataSent := 0;
     Info.LastDataReceived := 0;
     Info.LastAckReceived := 0;
     Info.FlowControl := None;
     Info.CongestionControl := None;
     Info.Sys := None |}.

(** A connection on which nothing has been measured. *)
Definition blank : @Info.t option_value sys_info :=
  {| Info.State := State.Unknown;
     Info.Options := [];
     Info.PeerOptions := [];
     Info.SenderMSS := 0;
     Info.ReceiverMSS := 0;
     Info.RTT := 0;
     Info.RTTVar := 0;
     Info.RTO := 0;
     Info.ATO := 0;
     Info.LastDataSent := 0;
     Info.LastDataReceived := 0;
     Info.LastAckReceived := 0;
     Info.FlowControl := Some {| ReceiverWindow := 0 |};
     Info.CongestionControl := None;
     Info.Sys := None |}.

End Sample.

(** * Properties *)

(** ** Encoding of maps *)

Section encode_map.
Context {V : Type} (enc : V → string + json).

Lemma encode_members_lookup (kvs : list (string * V)) js :
  encode_members enc kvs = inr js →
  ∀ k, (list_to_map js : gmap string json) !! k
       = (list_to_map kvs : gmap string V) !! k ≫= (encoded ∘ enc).
Proof.
  revert js. induction kvs as [|[k0 v0] kvs IH]; intros js Hjs k; simpl in Hjs.
  - by simplify_eq.
  - destruct (enc v0) as [msg|j] eqn:Hv0; [done|].
    destruct (encode_members enc kvs) as [msg|js'] eqn:Hrest; [done|].
    simplify_eq. rewrite !list_to_map_cons.
    destruct (decide (k0 = k)) as [->|Hne].
    + rewrite !lookup_insert_eq. simpl. by rewrite Hv0.
    + rewrite !lookup_insert_ne by done. by apply IH.
Qed.

Lemma encode_members_inl (kvs : list (string * V)) msg :
  encode_members enc kvs = inl msg →
  ∃ k v, (k, v) ∈ kvs ∧ enc v = inl msg.
Proof.
  induction kvs as [|[k0 v0] kvs IH]; simpl; [done|].
  destruct (enc v0) as [msg0|j] eqn:Hv0.
  - intros [= ->]. exists k0, v0. split; [left|done].
  - destruct (encode_members enc kvs) as [msg'|js']; [|done].
    intros [= ->]. destruct IH as (k & v & Hin & Hv); [done|].
    exists k, v. split; [by right|done].
Qed.

Lemma encode_members_inr (kvs : list (string * V)) :
  (∀ k v, (k, v) ∈ kvs → is_Some (encoded (enc v))) →
  ∃ js, encode_members enc kvs = inr js.
Proof.
  induction kvs as [|[k0 v0] kvs IH]; intros Hall; simpl; [by eexists|].
  destruct (Hall k0 v0) as [j Hj]; [left|].
  destruct (enc v0) as [msg|j0]; [done|].
  destruct IH as [js ->]; [|by eexists].
  intros k v Hin. apply (Hall k v). by right.
Qed.

Lemma encode_members_all (kvs : list (string * V)) js :
  encode_members enc kvs = inr js →
  ∀ k v, (k, v) ∈ kvs → is_Some (encoded (enc v)).
Proof.
  revert js. induction kvs as [|[k0 v0] kvs IH]; intros js Hjs k v Hin; simpl in Hjs.
  - by apply elem_of_nil in Hin.
  - destruct (enc v0) as [msg|j] eqn:Hv0; [done|].
    destruct (encode_members enc kvs) as [msg|js'] eqn:Hrest; [done|].
    apply elem_of_cons in Hin as [[= -> ->]|Hin].
    + rewrite Hv0. by eexists.
    + by eapply IH.
Qed.

Lemma members_Permutation (m : gmap string V) : members m ≡ₚ map_to_list m.
Proof. apply merge_sort_Permutation. Qed.

Lemma elem_of_members (m : gmap string V) k v :
  (k, v) ∈ members m ↔ m !! k = Some v.
Proof. by rewrite members_Permutation, elem_of_map_to_list. Qed.

Lemma list_to_map_members (m : gmap string V) : list_to_map (members m) = m.
Proof.
  rewrite <-(list_to_map_to_list m) at 2. apply list_to_map_proper.
  - rewrite members_Permutation. apply NoDup_fst_map_to_list.
  - apply members_Permutation.
Qed.

(** A map is encoded as the object of its encoded members. *)
Lemma encode_map_inr (m : gmap string V) doc :
  encode_map enc m = inr doc →
  ∃ d, doc = JObject d ∧ ∀ k, d !! k = m !! k ≫= (encoded ∘ enc).
Proof.
  unfold encode_map.
  destruct (encode_members enc (members m)) as [msg|js] eqn:Hjs; [done|].
  intros [= <-]. eexists; split; [done|]. intros k.
  rewrite (encode_members_lookup _ _ Hjs k). by rewrite list_to_map_members.
Qed.

Lemma encode_map_member (m : gmap string V) d k v :
  encode_map enc m = inr (JObject d) → m !! k = Some v →
  ∃ j, enc v = inr j ∧ d !! k = Some j.
Proof.
  intros Hdoc Hk. destruct (encode_map_inr _ _ Hdoc) as (d' & [= <-] & Hd).
  revert Hdoc. unfold encode_map.
  destruct (encode_members enc (members m)) as [msg|js] eqn:Hjs; [done|].
  intros _. apply elem_of_members in Hk.
  destruct (encode_members_all _ _ Hjs k v Hk) as [j Hj].
  destruct (enc v) as [msg|j'] eqn:Hv; [done|]. simplify_eq/=.
  exists j. split; [done|]. rewrite Hd.
  apply elem_of_members in Hk. rewrite Hk. simpl. by rewrite Hv.
Qed.

Lemma encode_map_absent (m : gmap string V) d k :
  encode_map enc m = inr (JObject d) → m !! k = None → d !! k = None.
Proof.
  intros Hdoc Hk. destruct (encode_map_inr _ _ Hdoc) as (d' & [= <-] & Hd).
  by rewrite Hd, Hk.
Qed.

(** The encoding fails with the message of a member that cannot be
    encoded. *)
Lemma encode_map_inl (m : gmap string V) msg :
  encode_map enc m = inl msg → ∃ k v, m !! k = Some v ∧ enc v = inl msg.
Proof.
  unfold encode_map.
  destruct (encode_members enc (members m)) as [msg'|js] eqn:Hjs; [|done].
  intros [= ->]. destruct (encode_members_inl _ _ Hjs) as (k & v & Hin & Hv).
  exists k, v. by rewrite <-elem_of_members.
Qed.

(** It succeeds when every member can be encoded. *)
Lemma encode_map_total (m : gmap string V) :
  (∀ k v, m !! k = Some v → is_Some (encoded (enc v))) →
  is_Some (encoded (encode_map enc m)).
Proof.
  intros Hall. unfold encode_map.
  destruct (encode_members_inr (members m)) as [js ->]; [|by eexists].
  intros k v Hin. apply (Hall k v). by apply elem_of_members.
Qed.

End encode_map.

(** ** The map assembled by [MarshalJSON] *)

Section raw.
Context {Option SysInfo : Type}.
Context `{!OptionKind Option, !Encodable Option, !Encodable SysInfo}.

Implicit Types (i : @Info.t Option SysInfo) (opts : list Option).

Lemma collect_snoc opts opt :
  collect (opts ++ [opt])
  = <[Kind_String opt := opt]> (collect opts).
Proof. unfold collect. by rewrite foldl_app. Qed.

(** Each kind name is mapped to the last option of that kind. *)
Lemma collect_lookup opts k :
  collect opts !! k = last_of_kind k opts.
Proof.
  unfold last_of_kind.
  induction opts as [|opt opts IH] using rev_ind; [done|].
  rewrite collect_snoc, filter_app, filter_cons, filter_nil.
  destruct (decide (Kind_String opt = k)) as [->|Hne].
  - by rewrite lookup_insert_eq, last_snoc.
  - by rewrite lookup_insert_ne, app_nil_r.
Qed.

Lemma collect_dom opts :
  dom (collect opts) = list_to_set (Kind_String <$> opts).
Proof.
  induction opts as [|opt opts IH] using rev_ind; [apply dom_empty_L|].
  rewrite collect_snoc, dom_insert_L, IH, fmap_app, list_to_set_app_L.
  simpl. by rewrite union_empty_r_L, union_comm_L.
Qed.

(** The last option of a kind is the one kept, whatever came before. *)
Lemma collect_overwrite opts1 opt opts2 :
  (∀ o, o ∈ opts2 → Kind_String o ≠ Kind_String opt) →
  collect (opts1 ++ opt :: opts2) !! Kind_String opt = Some opt.
Proof.
  induction opts2 as [|o opts2 IH] using rev_ind; intros Hlater.
  - by rewrite collect_snoc, lookup_insert_eq.
  - rewrite app_comm_cons, app_assoc, collect_snoc, lookup_insert_ne.
    + apply IH. intros o' Hin. apply Hlater, elem_of_app. by left.
    + apply Hlater, elem_of_app. right. by left.
Qed.

Ltac raw_lookup :=
  unfold raw; cbn zeta;
  repeat first
    [ rewrite lookup_insert_eq
    | rewrite lookup_insert_ne by done
    | rewrite lookup_empty
    | progress case_match ];
  try done.

Lemma raw_state i :
  raw i !! "state" = Some (VString (State.String (Info.State i))).
Proof. raw_lookup. Qed.

Lemma raw_opts i :
  raw i !! "opts"
  = match Info.Options i with
    | [] => None
    | _ :: _ => Some (VOptions (collect (Info.Options i)))
    end.
Proof. unfold raw; destruct (Info.Options i); simpl; raw_lookup. Qed.

Lemma raw_peer_opts i :
  raw i !! "peer_opts"
  = match Info.PeerOptions i with
    | [] => None
    | _ :: _ => Some (VOptions (collect (Info.PeerOptions i)))
    end.
Proof. unfold raw; destruct (Info.PeerOptions i); simpl; raw_lookup. Qed.

Lemma raw_flow_ctl i :
  raw i !! "flow_ctl"
  = (λ fc, VFlowControl (Some fc)) <$> Info.FlowControl i.
Proof. unfold raw; destruct (Info.FlowControl i); simpl; raw_lookup. Qed.

Lemma raw_cong_ctl i :
  raw i !! "cong_ctl"
  = (λ cc, VCongestionControl (Some cc)) <$> Info.CongestionControl i.
Proof. unfold raw; destruct (Info.CongestionControl i); simpl; raw_lookup. Qed.

Lemma raw_sys i :
  raw i !! "sys" = (λ sys, VSysInfo (Some sys)) <$> Info.Sys i.
Proof. unfold raw; destruct (Info.Sys i); simpl; raw_lookup. Qed.

Lemma raw_values i k v :
  raw i !! k = Some v → raw_value i v.
Proof.
  unfold raw; cbn zeta.
  destruct (Info.Sys i) as [sys|] eqn:Hsys,
           (Info.CongestionControl i) as [cc|],
           (Info.FlowControl i) as [fc|],
           (0 <? length (Info.PeerOptions i))%nat,
           (0 <? length (Info.Options i))%nat;
    repeat (rewrite lookup_insert; case_decide;
            [intros [= <-]; by constructor|]);
    by rewrite lookup_empty.
Qed.

End raw.

(** ** The document written by [MarshalJSON] *)

Section document.
Context {Option SysInfo : Type}.
Context `{!OptionKind Option, !Encodable Option, !Encodable SysInfo}.

Implicit Types (i : @Info.t Option SysInfo) (opts : list Option).


Lemma MarshalJSON_inr i doc :
  MarshalJSON i = (Some doc, None) →
  ∃ d, doc = JObject d ∧ encode_map encode_value (raw i) = inr (JObject d).
Proof.
  unfold MarshalJSON, json_Marshal.
  destruct (encode_map encode_value (raw i)) as [msg|doc'] eqn:Hdoc; [done|].
  intros [= ->]. destruct (encode_map_inr _ _ _ Hdoc) as (d & -> & _).
  by exists d.
Qed.

Lemma MarshalJSON_inl i e :
  (MarshalJSON i).2 = Some e →
  ∃ msg, e = jsonMarshalerError msg
         ∧ encode_map encode_value (raw i) = inl msg.
Proof.
  unfold MarshalJSON, json_Marshal.
  destruct (encode_map encode_value (raw i)) as [msg|doc']; [|done].
  intros [= <-]. by exists msg.
Qed.

(** A member of the document is the encoding of the slot of [raw] of the
    same name. *)
Lemma document_member i d k v :
  encode_map encode_value (raw i) = inr (JObject d) →
  raw i !! k = Some v → ∃ j, encode_value v = inr j ∧ d !! k = Some j.
Proof. apply encode_map_member. Qed.

Lemma collect_elem_of opts k opt : collect opts !! k = Some opt → opt ∈ opts.
Proof.
  rewrite collect_lookup. unfold last_of_kind. intros Hlast.
  apply last_Some in Hlast as [l' Hl'].
  assert (opt ∈ filter (λ o, Kind_String o = k) opts) as Hin.
  { rewrite Hl'. apply elem_of_app. right. by left. }
  by apply list_elem_of_filter in Hin as [_ ?].
Qed.

End document.

(** ** State names *)

Lemma states_defined st : st ∉ State.defined → State.states !! st = None.
Proof. intros Hst. by apply not_elem_of_list_to_map_1. Qed.

(** C1, as the code has it: each of the twelve defined states is
    rendered as its canonical name; every value outside the defined set
    is rendered as the text "<nil>"; [String] is total and never returns
    the empty string. *)
Theorem State_String_names :
  State.String <$> State.defined
  = ["unknown"; "closed"; "listen"; "syn-sent"; "syn-received";
     "established"; "fin-wait-1"; "fin-wait-2"; "close-wait"; "last-ack";
     "closing"; "time-wait"]
  ∧ (∀ st, st ∉ State.defined → State.String st = "<nil>")
  ∧ (∀ st, State.String st ≠ "").
Proof.
  split; [reflexivity|]. split.
  - intros st Hst. unfold State.String. by rewrite states_defined.
  - intros st. unfold State.String.
    destruct (State.states !! st) as [s|] eqn:Hs; [|done].
    apply elem_of_list_to_map_2 in Hs.
    repeat (apply elem_of_cons in Hs as [[= -> ->]|Hs]; [done|]).
    by apply elem_of_nil in Hs.
Qed.

Lemma State_String_names_witness :
  (12 ∉ State.defined) ∧ State.String 12 = "<nil>".
Proof.
  assert (12 ∉ State.defined) as Hout by compute_done.
  split; [exact Hout|].
  exact (proj1 (proj2 State_String_names) 12 Hout).
Defined.

(** C1, as the spec words it, fails: the value 12 is outside the defined
    set and is not rendered as "unknown-state". *)
Lemma State_String_not_unknown_state :
  (12 ∉ State.defined) ∧ State.String 12 ≠ "unknown-state".
Proof. split; [compute_done|by vm_compute]. Qed.

(** ** Congestion-control options *)

(** C2: "cubic" marshals to bytes that parse back to "cubic"; the empty
    name marshals to a zero-length buffer; a zero-length buffer parses
    to the empty name; and every name survives the round trip. *)
Theorem CCAlgorithm_roundtrip :
  parseCCAlgorithm (Marshal ("cubic" : CCAlgorithm)).1
  = (OptCCAlgorithm "cubic", None)
  ∧ len (Marshal ("" : CCAlgorithm)).1 = 0%nat
  ∧ (Marshal ("" : CCAlgorithm)).2 = None
  ∧ (∀ b, len b = 0%nat → parseCCAlgorithm b = (OptCCAlgorithm "", None))
  ∧ (∀ cca : CCAlgorithm,
       (Marshal cca).2 = None
       ∧ parseCCAlgorithm (Marshal cca).1 = (OptCCAlgorithm cca, None)).
Proof.
  split; [reflexivity|]. split; [reflexivity|]. split; [reflexivity|]. split.
  - intros [[|x l]|]; simpl; [done|lia|done].
  - intros cca. unfold Marshal, CCAlgorithm_Marshal, parseCCAlgorithm.
    destruct (decide (cca = "")) as [->|Hne]; simpl; [done|].
    by rewrite string_of_list_byte_of_string.
Qed.

Lemma CCAlgorithm_roundtrip_witness :
  len (Some []) = 0%nat ∧ parseCCAlgorithm (Some []) = (OptCCAlgorithm "", None).
Proof.
  split; [reflexivity|].
  apply (proj1 (proj2 (proj2 (proj2 CCAlgorithm_roundtrip)))). reflexivity.
Defined.

(** C5: [parseCCInfo] succeeds on every buffer and wraps it as it is;
    marshaling the result gives the buffer back. *)
Theorem parseCCInfo_verbatim (b : slice) :
  parseCCInfo b = (OptCCInfo {| Raw := b |}, None)
  ∧ Marshal (parseCCInfo b).1 = (b, None).
Proof. done. Qed.

(** The two parsers and the two [Marshal] methods, once the receiver
    has been read, return a nil error. *)
Lemma option_codecs_total (b : slice) (cci : CCInfo) (cca : CCAlgorithm) :
  (parseCCInfo b).2 = None
  ∧ (parseCCAlgorithm b).2 = None
  ∧ (Marshal cci).2 = None
  ∧ (Marshal cca).2 = None.
Proof.
  repeat split. unfold Marshal, CCAlgorithm_Marshal. by case_decide.
Qed.

(** ** Algorithm-specific information *)

Section registry.
Context {R : Type}.

(** [ParseCCAlgorithmInfo] hands on what [parseCCAlgorithmInfo] found. *)
Lemma ParseCCAlgorithmInfo_err (p : string → slice → option R * option error)
    name b e :
  (ParseCCAlgorithmInfo p name b).2 = Some e ↔ (p name b).2 = Some e.
Proof.
  unfold ParseCCAlgorithmInfo. by destruct (p name b) as [ccai [e'|]].
Qed.

End registry.

(** ** Field selection in [MarshalJSON] *)

Section selection.
Context {Option SysInfo : Type}.
Context `{!OptionKind Option, !Encodable Option, !Encodable SysInfo}.

Implicit Types (i : @Info.t Option SysInfo) (opts : list Option).

(** C8: the key "state" is mapped to the string that [State.String]
    returns, in the map that is encoded and in the document written;
    the member is never the number of the state. *)
Theorem MarshalJSON_state_name i :
  raw i !! "state" = Some (VString (State.String (Info.State i)))
  ∧ ∀ doc, MarshalJSON i = (Some doc, None) →
      ∃ d, doc = JObject d
           ∧ d !! "state" = Some (JString (State.String (Info.State i)))
           ∧ d !! "state" ≠ Some (JNumber (Info.State i)).
Proof.
  split; [apply raw_state|]. intros doc Hdoc.
  destruct (MarshalJSON_inr _ _ Hdoc) as (d & -> & Hd). exists d.
  destruct (document_member _ _ _ _ Hd (raw_state i)) as (j & [= <-] & Hj).
  by rewrite Hj.
Qed.

(** C3: each of the keys "flow_ctl", "cong_ctl" and "sys" is present if
    and only if the corresponding field of the [Info] is non-nil, in the
    map that is encoded and in the document written; a key that is
    present never holds a nil pointer, so an absent block is left out,
    not written as null. *)
Theorem MarshalJSON_optional_blocks i :
  (is_Some (raw i !! "flow_ctl") ↔ is_Some (Info.FlowControl i))
  ∧ (is_Some (raw i !! "cong_ctl") ↔ is_Some (Info.CongestionControl i))
  ∧ (is_Some (raw i !! "sys") ↔ is_Some (Info.Sys i))
  ∧ raw i !! "flow_ctl" ≠ Some (VFlowControl None)
  ∧ raw i !! "cong_ctl" ≠ Some (VCongestionControl None)
  ∧ raw i !! "sys" ≠ Some (VSysInfo None)
  ∧ ∀ doc, MarshalJSON i = (Some doc, None) →
      ∃ d, doc = JObject d
           ∧ (is_Some (d !! "flow_ctl") ↔ is_Some (Info.FlowControl i))
           ∧ (is_Some (d !! "cong_ctl") ↔ is_Some (Info.CongestionControl i))
           ∧ (is_Some (d !! "sys") ↔ is_Some (Info.Sys i))
           ∧ (Info.FlowControl i = None → d !! "flow_ctl" ≠ Some JNull)
           ∧ (Info.CongestionControl i = None → d !! "cong_ctl" ≠ Some JNull)
           ∧ (Info.Sys i = None → d !! "sys" ≠ Some JNull).
Proof.
  rewrite raw_flow_ctl, raw_cong_ctl, raw_sys, !fmap_is_Some.
  do 3 (split; [done|]).
  split; [by destruct (Info.FlowControl i)|].
  split; [by destruct (Info.CongestionControl i)|].
  split; [by destruct (Info.Sys i)|].
  intros doc Hdoc. destruct (MarshalJSON_inr _ _ Hdoc) as (d & -> & Hd).
  exists d. split; [done|].
  pose proof (raw_flow_ctl i) as Hfc. pose proof (raw_cong_ctl i) as Hcc.
  pose proof (raw_sys i) as Hsys.
  destruct (Info.FlowControl i) as [fc|];
    [destruct (document_member _ _ _ _ Hd Hfc) as (jfc & _ & ->)
    |rewrite (encode_map_absent _ _ _ _ Hd Hfc)];
  (destruct (Info.CongestionControl i) as [cc|];
    [destruct (document_member _ _ _ _ Hd Hcc) as (jcc & _ & ->)
    |rewrite (encode_map_absent _ _ _ _ Hd Hcc)]);
  (destruct (Info.Sys i) as [sys|];
    [destruct (document_member _ _ _ _ Hd Hsys) as (jsys & _ & ->)
    |rewrite (encode_map_absent _ _ _ _ Hd Hsys)]);
  repeat split; try done; by intros [? ?].
Qed.

(** C10: the key "opts" (respectively "peer_opts") is absent exactly
    when the sequence of options (respectively of peer options) is
    empty. *)
Theorem MarshalJSON_empty_options_omitted i :
  (raw i !! "opts" = None ↔ Info.Options i = [])
  ∧ (raw i !! "peer_opts" = None ↔ Info.PeerOptions i = [])
  ∧ ∀ doc, MarshalJSON i = (Some doc, None) →
      ∃ d, doc = JObject d
           ∧ (d !! "opts" = None ↔ Info.Options i = [])
           ∧ (d !! "peer_opts" = None ↔ Info.PeerOptions i = []).
Proof.
  pose proof (raw_opts i) as Ho. pose proof (raw_peer_opts i) as Hp.
  split; [|split].
  - rewrite Ho. by destruct (Info.Options i).
  - rewrite Hp. by destruct (Info.PeerOptions i).
  - intros doc Hdoc. destruct (MarshalJSON_inr _ _ Hdoc) as (d & -> & Hd).
    exists d. split; [done|].
    destruct (Info.Options i) as [|o os];
      [rewrite (encode_map_absent _ _ _ _ Hd Ho)
      |destruct (document_member _ _ _ _ Hd Ho) as (jo & _ & ->)];
    (destruct (Info.PeerOptions i) as [|p ps];
      [rewrite (encode_map_absent _ _ _ _ Hd Hp)
      |destruct (document_member _ _ _ _ Hd Hp) as (jp & _ & ->)]);
    done.
Qed.

(** When no option is nil: a non-empty sequence of options is stored,
    and written, as a mapping keyed by kind name; the mapping has one
    entry for each kind name that occurs, and the entry of a name is the
    last option of that kind. *)
Lemma MarshalJSON_options_by_kind i :
  (Info.Options i ≠ [] →
   raw i !! "opts" = Some (VOptions (collect (Info.Options i))))
  ∧ (Info.PeerOptions i ≠ [] →
     raw i !! "peer_opts" = Some (VOptions (collect (Info.PeerOptions i))))
  ∧ (∀ opts k, collect opts !! k = last_of_kind k opts)
  ∧ (∀ opts, dom (collect opts) = list_to_set (Kind_String <$> opts))
  ∧ (∀ opts1 opt opts2,
       (∀ o, o ∈ opts2 → Kind_String o ≠ Kind_String opt) →
       collect (opts1 ++ opt :: opts2) !! Kind_String opt = Some opt)
  ∧ ∀ doc, MarshalJSON i = (Some doc, None) →
      ∃ d, doc = JObject d
           ∧ (Info.Options i ≠ [] →
              ∃ om, d !! "opts" = Some (JObject om)
                    ∧ ∀ k, om !! k
                           = last_of_kind k (Info.Options i)
                               ≫= (encoded ∘ to_json))
           ∧ (Info.PeerOptions i ≠ [] →
              ∃ om, d !! "peer_opts" = Some (JObject om)
                    ∧ ∀ k, om !! k
                           = last_of_kind k (Info.PeerOptions i)
                               ≫= (encoded ∘ to_json)).
Proof.
  pose proof (raw_opts i) as Ho. pose proof (raw_peer_opts i) as Hp.
  split; [by destruct (Info.Options i)|].
  split; [by destruct (Info.PeerOptions i)|].
  split; [apply collect_lookup|]. split; [apply collect_dom|].
  split; [apply collect_overwrite|].
  intros doc Hdoc. destruct (MarshalJSON_inr _ _ Hdoc) as (d & -> & Hd).
  exists d. split; [done|]. split.
  - intros Hne. destruct (Info.Options i) as [|o os] eqn:Hopts; [done|].
    destruct (document_member _ _ _ _ Hd Ho) as (j & Hj & ->).
    simpl in Hj. destruct (encode_map_inr _ _ _ Hj) as (om & -> & Hom).
    exists om. split; [done|]. intros k. by rewrite Hom, collect_lookup.
  - intros Hne. destruct (Info.PeerOptions i) as [|o os] eqn:Hopts; [done|].
    destruct (document_member _ _ _ _ Hd Hp) as (j & Hj & ->).
    simpl in Hj. destruct (encode_map_inr _ _ _ Hj) as (om & -> & Hom).
    exists om. split; [done|]. intros k. by rewrite Hom, collect_lookup.
Qed.

Lemma encode_value_inl i v msg :
  raw_value i v → encode_value v = inl msg →
  (∃ opt, opt ∈ (Info.Options i ++ Info.PeerOptions i)%list ∧ to_json opt = inl msg)
  ∨ (∃ sys, Info.Sys i = Some sys ∧ to_json sys = inl msg).
Proof.
  intros Hv Hmsg. destruct Hv as [| | | | | | |sys Hsys]; simpl in Hmsg;
    try done.
  - destruct (encode_map_inl _ _ _ Hmsg) as (k & opt & Hk & Hopt).
    left. exists opt. split; [|done].
    apply elem_of_app. left. by eapply collect_elem_of.
  - destruct (encode_map_inl _ _ _ Hmsg) as (k & opt & Hk & Hopt).
    left. exists opt. split; [|done].
    apply elem_of_app. right. by eapply collect_elem_of.
  - right. by exists sys.
Qed.

Lemma encode_value_inr i v :
  (∀ opt, opt ∈ (Info.Options i ++ Info.PeerOptions i)%list →
          is_Some (encoded (to_json opt))) →
  (∀ sys, Info.Sys i = Some sys → is_Some (encoded (to_json sys))) →
  raw_value i v → is_Some (encoded (encode_value v)).
Proof.
  intros Hopts Hsys Hv.
  destruct Hv as [| | | | | | |sys Hsys']; simpl; try by eexists.
  - apply encode_map_total. intros k opt Hk.
    apply Hopts, elem_of_app. left. by eapply collect_elem_of.
  - apply encode_map_total. intros k opt Hk.
    apply Hopts, elem_of_app. right. by eapply collect_elem_of.
  - by apply Hsys.
Qed.

(** When no option is nil: where the errors of the operations come
    from. *)
Lemma errors_returned i :
  (∀ b, (parseCCInfo b).2 = None ∧ (parseCCAlgorithm b).2 = None)
  ∧ (∀ (cci : CCInfo) (cca : CCAlgorithm),
       (Marshal cci).2 = None ∧ (Marshal cca).2 = None)
  ∧ (∀ (R : Type) (p : string → slice → option R * option error) name b e,
       (ParseCCAlgorithmInfo p name b).2 = Some e → (p name b).2 = Some e)
  ∧ (∀ e, (MarshalJSON i).2 = Some e →
       ∃ msg, e = jsonMarshalerError msg
              ∧ ((∃ opt, opt ∈ (Info.Options i ++ Info.PeerOptions i)%list
                         ∧ to_json opt = inl msg)
                 ∨ (∃ sys, Info.Sys i = Some sys ∧ to_json sys = inl msg)))
  ∧ ((∀ opt, opt ∈ (Info.Options i ++ Info.PeerOptions i)%list →
             is_Some (encoded (to_json opt))) →
     (∀ sys, Info.Sys i = Some sys → is_Some (encoded (to_json sys))) →
     ∃ doc, MarshalJSON i = (Some doc, None)).
Proof.
  split; [done|]. split.
  { intros cci cca. split; [done|].
    unfold Marshal, CCAlgorithm_Marshal. by case_decide. }
  split.
  { intros R p name b e. unfold ParseCCAlgorithmInfo.
    by destruct (p name b) as [ccai [e'|]]. }
  split.
  - intros e He. destruct (MarshalJSON_inl _ _ He) as (msg & -> & Hmsg).
    exists msg. split; [done|].
    destruct (encode_map_inl _ _ _ Hmsg) as (k & v & Hk & Hv).
    apply (encode_value_inl i v msg); [by eapply raw_values|done].
  - intros Hopts Hsys. unfold MarshalJSON, json_Marshal.
    destruct (encode_map_total encode_value (raw i)) as [doc Hdoc].
    + intros k v Hk. apply (encode_value_inr i v); [done..|].
      by eapply raw_values.
    + destruct (encode_map encode_value (raw i)); [done|]. by eexists.
Qed.

End selection.

(** ** The statements above on the sample values *)

Lemma Sample_established_document :
  MarshalJSON Sample.established
  = (Some (default JNull (MarshalJSON Sample.established).1), None).
Proof. vm_compute. reflexivity. Defined.

Lemma MarshalJSON_state_name_witness :
  ∃ d, (MarshalJSON Sample.established).1 = Some (JObject d)
       ∧ d !! "state" = Some (JString "established").
Proof.
  destruct (proj2 (MarshalJSON_state_name Sample.established) _
              Sample_established_document) as (d & Hdoc & Hstate & _).
  exists d. split; [|exact Hstate].
  rewrite Sample_established_document. simpl. by rewrite Hdoc.
Defined.

Lemma MarshalJSON_optional_blocks_witness :
  ∃ d, (MarshalJSON Sample.established).1 = Some (JObject d)
       ∧ is_Some (d !! "flow_ctl")
       ∧ d !! "cong_ctl" = None
       ∧ is_Some (d !! "sys").
Proof.
  destruct (MarshalJSON_optional_blocks Sample.established)
    as (_ & _ & _ & _ & _ & _ & Hdoc).
  destruct (Hdoc _ Sample_established_document)
    as (d & Hd & Hfc & Hcc & Hsys & _).
  exists d. split; [|split; [|split]].
  - rewrite Sample_established_document. simpl. by rewrite Hd.
  - apply Hfc. by eexists.
  - apply eq_None_not_Some. intros Hsome. by apply Hcc, is_Some_None in Hsome.
  - apply Hsys. by eexists.
Defined.

Lemma MarshalJSON_empty_options_omitted_witness :
  ∃ d, (MarshalJSON Sample.established).1 = Some (JObject d)
       ∧ d !! "opts" ≠ None
       ∧ d !! "peer_opts" = None.
Proof.
  destruct (MarshalJSON_empty_options_omitted Sample.established)
    as (_ & _ & Hdoc).
  destruct (Hdoc _ Sample_established_document) as (d & Hd & Ho & Hp).
  exists d. split; [|split].
  - rewrite Sample_established_document. simpl. by rewrite Hd.
  - intros Hnone. by apply Ho in Hnone.
  - by apply Hp.
Defined.

(** C7, as the spec words it, fails: an [Info] holding an option that
    [encoding/json] cannot encode makes [MarshalJSON] return an error
    that is neither "operation not supported" nor "buffer too short". *)
Lemma MarshalJSON_error_not_sentinel :
  ∃ e, MarshalJSON Sample.unencodable = (None, Some e)
       ∧ e ≠ errOpNoSupport ∧ e ≠ errBufferTooShort
       ∧ is_sentinel e = false.
Proof.
  exists (jsonMarshalerError "json: error calling MarshalJSON").
  split; [by vm_compute|]. done.
Qed.

(** * Further properties *)

(** ** State names *)

Lemma State_String_outside st :
  st ∉ State.defined → State.String st = "<nil>".
Proof. intros Hst. unfold State.String. by rewrite states_defined. Qed.

Lemma State_String_inside st :
  st ∈ State.defined → State.String st ≠ "<nil>".
Proof.
  intros Hst Heq.
  repeat (apply elem_of_cons in Hst as [->|Hst]; [by vm_compute in Heq|]).
  by apply elem_of_nil in Hst.
Qed.

(** The name of a defined state belongs to that state alone: a value
    rendered as the name of a defined state is that state. *)
Theorem State_String_injective st1 st2 :
  st1 ∈ State.defined → State.String st1 = State.String st2 → st1 = st2.
Proof.
  intros H1 Heq. destruct (decide (st2 ∈ State.defined)) as [H2|H2].
  - repeat (apply elem_of_cons in H1 as [->|H1];
      [repeat (apply elem_of_cons in H2 as [->|H2];
         [first [reflexivity | by vm_compute in Heq]|]);
       by apply elem_of_nil in H2|]).
    by apply elem_of_nil in H1.
  - rewrite (State_String_outside st2 H2) in Heq.
    by apply State_String_inside in Heq.
Qed.

Lemma State_String_injective_witness :
  State.Established = 5.
Proof.
  apply State_String_injective; [compute_done|reflexivity].
Defined.

(** The text "<nil>" marks exactly the values outside the defined set;
    in particular it is never the rendering of [Unknown]. *)
Theorem State_String_nil_iff st :
  State.String st = "<nil>" ↔ st ∉ State.defined.
Proof.
  split.
  - intros Heq Hin. by apply State_String_inside in Hin.
  - apply State_String_outside.
Qed.

Lemma State_String_nil_iff_witness :
  State.String (-1) = "<nil>" ∧ State.Unknown ∈ State.defined.
Proof.
  split.
  - apply State_String_nil_iff. compute_done.
  - destruct (decide (State.Unknown ∈ State.defined)) as [Hin|Hout]; [done|].
    apply State_String_nil_iff in Hout. by vm_compute in Hout.
Defined.

(** ** Names of congestion-control algorithms as bytes *)

Lemma length_list_byte_of_string (s : string) :
  length (list_byte_of_string s) = String.length s.
Proof.
  unfold list_byte_of_string. rewrite length_map.
  induction s as [|a s IH]; simpl; [done|]. by rewrite IH.
Qed.

Lemma string_of_list_byte_empty (l : list byte) :
  string_of_list_byte l = "" ↔ l = [].
Proof.
  split; [|by intros ->]. intros Hl.
  rewrite <-(list_byte_of_string_of_list_byte l). by rewrite Hl.
Qed.

(** [Marshal] writes one byte per byte of the name, and returns the nil
    slice for the empty name only. *)
Theorem CCAlgorithm_Marshal_length (cca : CCAlgorithm) :
  len (Marshal cca).1 = String.length cca
  ∧ ((Marshal cca).1 = None ↔ cca = "").
Proof.
  unfold Marshal, CCAlgorithm_Marshal.
  destruct (decide (cca = "")) as [->|Hne]; simpl; [done|].
  split; [apply length_list_byte_of_string|]. by split.
Qed.

Lemma CCAlgorithm_Marshal_length_witness :
  (Marshal ("" : CCAlgorithm)).1 = None
  ∧ len (Marshal ("cubic" : CCAlgorithm)).1 = 5%nat.
Proof.
  split.
  - by apply (CCAlgorithm_Marshal_length "").
  - exact (proj1 (CCAlgorithm_Marshal_length "cubic")).
Defined.

(** Two names that marshal to the same bytes are the same name. *)
Theorem CCAlgorithm_Marshal_injective (cca1 cca2 : CCAlgorithm) :
  (Marshal cca1).1 = (Marshal cca2).1 → cca1 = cca2.
Proof.
  unfold Marshal, CCAlgorithm_Marshal.
  destruct (decide (cca1 = "")) as [->|Hne1],
           (decide (cca2 = "")) as [->|Hne2]; simpl; try done.
  intros [= Heq].
  rewrite <-(string_of_list_byte_of_string cca1),
          <-(string_of_list_byte_of_string cca2).
  by rewrite Heq.
Qed.

Lemma CCAlgorithm_Marshal_injective_witness :
  string_of_list_byte (list_byte_of_string "reno") = "reno".
Proof. by apply CCAlgorithm_Marshal_injective. Defined.

(** Parsing a buffer and marshaling the name again gives the same bytes;
    a buffer of length zero, nil or not, comes back as the nil slice,
    every other buffer comes back as it was. *)
Theorem CCAlgorithm_parse_Marshal (b : slice) :
  elems (Marshal (parseCCAlgorithm b).1).1 = elems b
  ∧ (len b = 0%nat → (Marshal (parseCCAlgorithm b).1).1 = None)
  ∧ (len b ≠ 0%nat → (Marshal (parseCCAlgorithm b).1).1 = b)
  ∧ (Marshal (parseCCAlgorithm b).1).2 = None.
Proof.
  unfold parseCCAlgorithm; simpl.
  unfold Marshal, tcpopt_Option_Marshal, Marshal, CCAlgorithm_Marshal.
  destruct (decide (string_of_list_byte (elems b) = "")) as [He|Hne]; simpl.
  - apply string_of_list_byte_empty in He.
    destruct b as [l|]; simpl in *; subst; done.
  - rewrite list_byte_of_string_of_list_byte.
    destruct b as [[|x l]|]; simpl in *; done.
Qed.

Lemma CCAlgorithm_parse_Marshal_witness :
  (Marshal (parseCCAlgorithm (Some [])).1).1 = None
  ∧ (Marshal (parseCCAlgorithm (Some ["c"%byte])).1).1 = Some ["c"%byte].
Proof.
  split.
  - by apply (CCAlgorithm_parse_Marshal (Some [])).
  - by apply (CCAlgorithm_parse_Marshal (Some ["c"%byte])).
Defined.

(** ** What [ParseCCAlgorithmInfo] hands on *)

(** [ParseCCAlgorithmInfo] returns the error of the platform function
    unchanged; with an error it returns no record, even if the platform
    function produced one; without an error it returns the record of the
    platform function. *)
Theorem ParseCCAlgorithmInfo_relay {R : Type}
    (p : string → slice → option R * option error) (name : string) (b : slice) :
  (ParseCCAlgorithmInfo p name b).2 = (p name b).2
  ∧ ((p name b).2 ≠ None → (ParseCCAlgorithmInfo p name b).1 = None)
  ∧ ((p name b).2 = None → ParseCCAlgorithmInfo p name b = p name b).
Proof.
  unfold ParseCCAlgorithmInfo. by destruct (p name b) as [ccai [e|]].
Qed.

Lemma ParseCCAlgorithmInfo_relay_witness :
  ParseCCAlgorithmInfo Sample.lenient "vegas" None
  = (None, Some errBufferTooShort)
  ∧ ParseCCAlgorithmInfo Sample.lenient "vegas" (Some ["000"%byte])
    = Sample.lenient "vegas" (Some ["000"%byte]).
Proof.
  split.
  - apply injective_projections.
    + by apply (ParseCCAlgorithmInfo_relay Sample.lenient "vegas" None).
    + by rewrite (proj1 (ParseCCAlgorithmInfo_relay Sample.lenient "vegas" None)).
  - by apply (ParseCCAlgorithmInfo_relay Sample.lenient "vegas"
                (Some ["000"%byte])).
Defined.

(** ** The members of the document *)

Section members.
Context {Option SysInfo : Type}.
Context `{!OptionKind Option, !Encodable Option, !Encodable SysInfo}.

Implicit Types (i : @Info.t Option SysInfo) (opts : list Option).

Lemma encode_map_dom {V : Type} (enc : V → string + json)
    (m : gmap string V) d :
  encode_map enc m = inr (JObject d) → dom d = dom m.
Proof.
  intros Hd. apply set_eq. intros k. rewrite !elem_of_dom.
  destruct (m !! k) as [v|] eqn:Hk.
  - destruct (encode_map_member _ _ _ _ _ Hd Hk) as (j & _ & ->).
    split; by eexists.
  - rewrite (encode_map_absent _ _ _ _ Hd Hk). split; by intros [? ?].
Qed.

Lemma dom_insert_if {V : Type} (c : bool) k (v : V) (m : gmap string V) :
  dom (if c then <[k:=v]> m else m)
  = list_to_set (if c then [k] else []) ∪ dom m.
Proof.
  destruct c; simpl.
  - by rewrite dom_insert_L, union_empty_r_L.
  - by rewrite union_empty_l_L.
Qed.

Lemma dom_insert_is_Some {V A : Type} (o : option A) k (v : V)
    (m : gmap string V) :
  dom (if o is Some _ then <[k:=v]> m else m)
  = list_to_set (if o is Some _ then [k] else []) ∪ dom m.
Proof.
  destruct o; simpl.
  - by rewrite dom_insert_L, union_empty_r_L.
  - by rewrite union_empty_l_L.
Qed.

Lemma raw_dom i : dom (raw i) = list_to_set (keys i).
Proof.
  unfold raw, keys; cbn zeta.
  rewrite !dom_insert_is_Some, !dom_insert_L, !dom_insert_if, !dom_insert_L,
    dom_empty_L, !list_to_set_app_L.
  apply set_eq; intros k. simpl. rewrite !elem_of_union. tauto.
Qed.

Lemma keys_NoDup i : NoDup (keys i).
Proof.
  unfold keys.
  destruct (0 <? length (Info.Options i))%nat,
           (0 <? length (Info.PeerOptions i))%nat,
           (Info.FlowControl i), (Info.CongestionControl i), (Info.Sys i);
    simpl; compute_done.
Qed.

Lemma keys_length i : (10 ≤ length (keys i) ≤ 15)%nat.
Proof.
  unfold keys.
  destruct (0 <? length (Info.Options i))%nat,
           (0 <? length (Info.PeerOptions i))%nat,
           (Info.FlowControl i), (Info.CongestionControl i), (Info.Sys i);
    simpl; lia.
Qed.

(** The members of the document are the names assigned at lines 107-139
    and no others: ten names that are always there and up to five that
    depend on the [Info]; no name is assigned twice. *)
Theorem MarshalJSON_keys i :
  dom (raw i) = list_to_set (keys i)
  ∧ NoDup (keys i)
  ∧ size (raw i) = length (keys i)
  ∧ (10 ≤ size (raw i) ≤ 15)%nat
  ∧ ∀ doc, MarshalJSON i = (Some doc, None) →
      ∃ d, doc = JObject d ∧ dom d = list_to_set (keys i)
           ∧ size d = length (keys i).
Proof.
  assert (size (raw i) = length (keys i)) as Hsize.
  { rewrite <-size_dom, raw_dom. apply size_list_to_set, keys_NoDup. }
  split; [apply raw_dom|]. split; [apply keys_NoDup|]. split; [done|].
  split; [rewrite Hsize; apply keys_length|].
  intros doc Hdoc. destruct (MarshalJSON_inr _ _ Hdoc) as (d & -> & Hd).
  exists d. split; [done|].
  assert (dom d = list_to_set (keys i)) as Hdom.
  { by rewrite (encode_map_dom _ _ _ Hd), raw_dom. }
  split; [done|].
  rewrite <-size_dom, Hdom. apply size_list_to_set, keys_NoDup.
Qed.

End members.

(** ** Options of distinct kinds *)

Lemma size_list_to_set_le (l : list string) :
  (size (list_to_set l : gset string) ≤ length l)%nat
  ∧ (size (list_to_set l : gset string) = length l → NoDup l).
Proof.
  induction l as [|x l [IHle IHeq]]; simpl.
  - split; [by vm_compute|constructor].
  - destruct (decide (x ∈ l)) as [Hin|Hout].
    + assert ({[x]} ∪ list_to_set l = (list_to_set l : gset string)) as ->.
      { apply set_eq. intros y.
        rewrite elem_of_union, elem_of_singleton, elem_of_list_to_set.
        split; [by intros [->|?]|by right]. }
      split; lia.
    + rewrite size_union, size_singleton.
      * split; [lia|]. intros Heq. apply NoDup_cons. split; [done|].
        apply IHeq. lia.
      * intros y. rewrite elem_of_singleton, elem_of_list_to_set.
        by intros ->.
Qed.

Section kinds.
Context {Option SysInfo : Type}.
Context `{!OptionKind Option, !Encodable Option, !Encodable SysInfo}.

Implicit Types (i : @Info.t Option SysInfo) (opts : list Option).

Lemma collect_list_to_map opts :
  collect opts = list_to_map (reverse ((λ o, (Kind_String o, o)) <$> opts)).
Proof.
  induction opts as [|opt opts IH] using rev_ind; [done|].
  rewrite collect_snoc, fmap_app. cbn [fmap list_fmap].
  by rewrite reverse_snoc, list_to_map_cons, IH.
Qed.

Lemma collect_Permutation opts opts' :
  NoDup (Kind_String <$> opts) → opts ≡ₚ opts' → collect opts = collect opts'.
Proof.
  intros Hkinds Hperm. rewrite !collect_list_to_map.
  apply list_to_map_proper.
  - rewrite fmap_reverse, <-list_fmap_compose.
    by rewrite reverse_Permutation.
  - by rewrite !reverse_Permutation, Hperm.
Qed.

(** The mapping never has more entries than there are options; it has
    as many exactly when the kind names are pairwise distinct, and then
    every option is found under the name of its kind. *)
Theorem collect_size opts :
  (size (collect opts) ≤ length opts)%nat
  ∧ (size (collect opts) = length opts ↔ NoDup (Kind_String <$> opts))
  ∧ (NoDup (Kind_String <$> opts) →
     ∀ opt, opt ∈ opts → collect opts !! Kind_String opt = Some opt).
Proof.
  assert (size (collect opts)
          = size (list_to_set (Kind_String <$> opts) : gset string)) as ->.
  { by rewrite <-size_dom, collect_dom. }
  pose proof (size_list_to_set_le (Kind_String <$> opts)) as [Hle Heq].
  rewrite length_fmap in Hle, Heq. split; [done|]. split.
  - split; [done|]. intros Hnd. by rewrite size_list_to_set, length_fmap.
  - intros Hnd opt Hin.
    apply list_elem_of_split in Hin as (opts1 & opts2 & ->).
    apply collect_overwrite. intros o Ho Heqk.
    rewrite fmap_app, fmap_cons in Hnd.
    apply NoDup_app in Hnd as (_ & _ & Hnd).
    apply NoDup_cons in Hnd as [Hnotin _].
    apply Hnotin. rewrite <-Heqk. by apply list_elem_of_fmap_2.
Qed.

Lemma raw_with_Options i opts' :
  length opts' = length (Info.Options i) →
  collect opts' = collect (Info.Options i) →
  raw (with_Options i opts') = raw i.
Proof. intros Hlen Hcollect. unfold raw; simpl. by rewrite Hlen, Hcollect. Qed.

(** When the kinds of the options are pairwise distinct, the order of
    the options has no effect on what [MarshalJSON] returns. *)
Theorem MarshalJSON_option_order i opts' :
  NoDup (Kind_String <$> Info.Options i) → Info.Options i ≡ₚ opts' →
  raw (with_Options i opts') = raw i
  ∧ MarshalJSON (with_Options i opts') = MarshalJSON i.
Proof.
  intros Hnd Hperm.
  assert (raw (with_Options i opts') = raw i) as Hraw.
  { apply raw_with_Options.
    - by rewrite Hperm.
    - symmetry. by apply collect_Permutation. }
  split; [done|]. unfold MarshalJSON. by rewrite Hraw.
Qed.

End kinds.

Lemma collect_size_witness :
  collect [Sample.wscale 7; Sample.sack true] !! "sack"
  = Some (Sample.sack true)
  ∧ size (collect [Sample.wscale 7; Sample.sack true]) = 2%nat.
Proof.
  assert (NoDup (Kind_String <$> [Sample.wscale 7; Sample.sack true]))
    as Hnd by compute_done.
  destruct (collect_size [Sample.wscale 7; Sample.sack true])
    as (_ & Hsize & Hall).
  split.
  - apply (Hall Hnd (Sample.sack true)). right. left.
  - by apply Hsize.
Defined.

Lemma MarshalJSON_option_order_witness :
  MarshalJSON (with_Options Sample.blank [Sample.sack true; Sample.wscale 7])
  = MarshalJSON (with_Options Sample.blank [Sample.wscale 7; Sample.sack true]).
Proof.
  apply (MarshalJSON_option_order
           (with_Options Sample.blank [Sample.wscale 7; Sample.sack true])
           [Sample.sack true; Sample.wscale 7]).
  - compute_done.
  - apply Permutation_swap.
Defined.

(** ** Members that are always written, and the content of the blocks *)

Section fields.
Context {Option SysInfo : Type}.
Context `{!OptionKind Option, !Encodable Option, !Encodable SysInfo}.

Implicit Types (i : @Info.t Option SysInfo) (opts : list Option).

Ltac raw_scalar :=
  unfold raw; cbn zeta;
  repeat first
    [ rewrite lookup_insert_eq
    | rewrite lookup_insert_ne by done
    | progress case_match ];
  done.

Lemma raw_snd_mss i : raw i !! "snd_mss" = Some (VMaxSegSize (Info.SenderMSS i)).
Proof. raw_scalar. Qed.

Lemma raw_rcv_mss i : raw i !! "rcv_mss" = Some (VMaxSegSize (Info.ReceiverMSS i)).
Proof. raw_scalar. Qed.

Lemma raw_rtt i : raw i !! "rtt" = Some (VDuration (Info.RTT i)).
Proof. raw_scalar. Qed.

Lemma raw_rttvar i : raw i !! "rttvar" = Some (VDuration (Info.RTTVar i)).
Proof. raw_scalar. Qed.

Lemma raw_rto i : raw i !! "rto" = Some (VDuration (Info.RTO i)).
Proof. raw_scalar. Qed.

Lemma raw_ato i : raw i !! "ato" = Some (VDuration (Info.ATO i)).
Proof. raw_scalar. Qed.

Lemma raw_last_data_sent i :
  raw i !! "last_data_sent" = Some (VDuration (Info.LastDataSent i)).
Proof. raw_scalar. Qed.

Lemma raw_last_data_rcvd i :
  raw i !! "last_data_rcvd" = Some (VDuration (Info.LastDataReceived i)).
Proof. raw_scalar. Qed.

Lemma raw_last_ack_rcvd i :
  raw i !! "last_ack_rcvd" = Some (VDuration (Info.LastAckReceived i)).
Proof. raw_scalar. Qed.

Ltac member Hd Hraw :=
  let j := fresh "j" in
  let Hj := fresh "Hj" in
  destruct (document_member _ _ _ _ Hd Hraw) as (j & Hj & ->);
  simpl in Hj; injection Hj as <-.

(** The two segment sizes and the seven durations are written for every
    [Info], whatever their value, zero included, each as the number held
    by the field. *)
Theorem MarshalJSON_scalar_fields i doc :
  MarshalJSON i = (Some doc, None) →
  ∃ d, doc = JObject d
       ∧ d !! "snd_mss" = Some (JNumber (Info.SenderMSS i))
       ∧ d !! "rcv_mss" = Some (JNumber (Info.ReceiverMSS i))
       ∧ d !! "rtt" = Some (JNumber (Info.RTT i))
       ∧ d !! "rttvar" = Some (JNumber (Info.RTTVar i))
       ∧ d !! "rto" = Some (JNumber (Info.RTO i))
       ∧ d !! "ato" = Some (JNumber (Info.ATO i))
       ∧ d !! "last_data_sent" = Some (JNumber (Info.LastDataSent i))
       ∧ d !! "last_data_rcvd" = Some (JNumber (Info.LastDataReceived i))
       ∧ d !! "last_ack_rcvd" = Some (JNumber (Info.LastAckReceived i)).
Proof.
  intros Hdoc. destruct (MarshalJSON_inr _ _ Hdoc) as (d & -> & Hd).
  exists d. split; [done|].
  member Hd (raw_snd_mss i). member Hd (raw_rcv_mss i).
  member Hd (raw_rtt i). member Hd (raw_rttvar i). member Hd (raw_rto i).
  member Hd (raw_ato i). member Hd (raw_last_data_sent i).
  member Hd (raw_last_data_rcvd i). member Hd (raw_last_ack_rcvd i).
  done.
Qed.

(** A block that is present is written as an object of its own fields,
    under their tagged names, each field whatever its value; the
    platform block is written as [encoding/json] renders it. *)
Theorem MarshalJSON_block_members i doc :
  MarshalJSON i = (Some doc, None) →
  ∃ d, doc = JObject d
       ∧ d !! "flow_ctl"
         = (λ fc, JObject {[ "rcv_wnd" := JNumber (ReceiverWindow fc) ]})
             <$> Info.FlowControl i
       ∧ d !! "cong_ctl"
         = (λ cc, JObject (list_to_map
                     [("snd_ssthresh", JNumber (SenderSSThreshold cc));
                      ("rcv_ssthresh", JNumber (ReceiverSSThreshold cc));
                      ("snd_cwnd", JNumber (SenderWindow cc))]))
             <$> Info.CongestionControl i
       ∧ d !! "sys" = Info.Sys i ≫= (encoded ∘ to_json).
Proof.
  intros Hdoc. destruct (MarshalJSON_inr _ _ Hdoc) as (d & -> & Hd).
  exists d. split; [done|].
  pose proof (raw_flow_ctl i) as Hfc. pose proof (raw_cong_ctl i) as Hcc.
  pose proof (raw_sys i) as Hsys.
  split; [|split].
  - destruct (Info.FlowControl i) as [fc|]; simpl in *.
    + by destruct (document_member _ _ _ _ Hd Hfc) as (j & [= <-] & ->).
    + by rewrite (encode_map_absent _ _ _ _ Hd Hfc).
  - destruct (Info.CongestionControl i) as [cc|]; simpl in *.
    + by destruct (document_member _ _ _ _ Hd Hcc) as (j & [= <-] & ->).
    + by rewrite (encode_map_absent _ _ _ _ Hd Hcc).
  - destruct (Info.Sys i) as [sys|]; simpl in *.
    + destruct (document_member _ _ _ _ Hd Hsys) as (j & Hj & ->).
      simpl in Hj. by rewrite Hj.
    + by rewrite (encode_map_absent _ _ _ _ Hd Hsys).
Qed.

End fields.

(** ** When [MarshalJSON] succeeds *)

Section success.
Context {Option SysInfo : Type}.
Context `{!OptionKind Option, !Encodable Option, !Encodable SysInfo}.

Implicit Types (i : @Info.t Option SysInfo) (opts : list Option).

Lemma encode_collect_inr opts j k opt :
  encode_map to_json (collect opts) = inr j →
  last_of_kind k opts = Some opt → is_Some (encoded (to_json opt)).
Proof.
  intros Hj Hlast. destruct (encode_map_inr _ _ _ Hj) as (om & -> & _).
  rewrite <-collect_lookup in Hlast.
  destruct (encode_map_member _ _ _ _ _ Hj Hlast) as (j' & -> & _).
  by eexists.
Qed.

Lemma encode_collect_total opts :
  (∀ k opt, last_of_kind k opts = Some opt → is_Some (encoded (to_json opt))) →
  is_Some (encoded (encode_map to_json (collect opts))).
Proof.
  intros Hkept. apply encode_map_total. intros k opt Hk.
  apply (Hkept k). by rewrite <-collect_lookup.
Qed.

(** When no option is nil, [MarshalJSON] succeeds exactly when the
    options that the mappings keep, and the platform block if there is
    one, can be encoded. *)
Lemma MarshalJSON_succeeds_iff i :
  (∃ doc, MarshalJSON i = (Some doc, None))
  ↔ (∀ k opt, last_of_kind k (Info.Options i) = Some opt →
              is_Some (encoded (to_json opt)))
    ∧ (∀ k opt, last_of_kind k (Info.PeerOptions i) = Some opt →
                is_Some (encoded (to_json opt)))
    ∧ (∀ sys, Info.Sys i = Some sys → is_Some (encoded (to_json sys))).
Proof.
  split.
  - intros [doc Hdoc]. destruct (MarshalJSON_inr _ _ Hdoc) as (d & -> & Hd).
    pose proof (raw_opts i) as Ho. pose proof (raw_peer_opts i) as Hp.
    pose proof (raw_sys i) as Hsys.
    split; [|split].
    + intros k opt Hlast. destruct (Info.Options i) as [|o os]; [done|].
      destruct (document_member _ _ _ _ Hd Ho) as (j & Hj & _).
      by eapply encode_collect_inr.
    + intros k opt Hlast. destruct (Info.PeerOptions i) as [|o os]; [done|].
      destruct (document_member _ _ _ _ Hd Hp) as (j & Hj & _).
      by eapply encode_collect_inr.
    + intros sys Hsome. rewrite Hsome in Hsys.
      destruct (document_member _ _ _ _ Hd Hsys) as (j & Hj & _).
      simpl in Hj. rewrite Hj. by eexists.
  - intros (Hopts & Hpeer & Hsys). unfold MarshalJSON, json_Marshal.
    destruct (encode_map_total encode_value (raw i)) as [doc Hdoc].
    + intros k v Hk. apply raw_values in Hk.
      destruct Hk as [| | | | | | |sys Hsys']; simpl; try by eexists.
      * by apply encode_collect_total.
      * by apply encode_collect_total.
      * by apply Hsys.
    + destruct (encode_map encode_value (raw i)); [done|]. by eexists.
Qed.

End success.

(** ** The further statements on the sample values *)

Lemma Sample_blank_document :
  MarshalJSON Sample.blank
  = (Some (default JNull (MarshalJSON Sample.blank).1), None).
Proof. vm_compute. reflexivity. Defined.

Lemma MarshalJSON_keys_witness :
  ∃ d, (MarshalJSON Sample.blank).1 = Some (JObject d) ∧ size d = 11%nat.
Proof.
  destruct (MarshalJSON_keys Sample.blank) as (_ & _ & _ & _ & Hdoc).
  destruct (Hdoc _ Sample_blank_document) as (d & Hd & _ & Hsize).
  exists d. split; [|exact Hsize].
  rewrite Sample_blank_document. simpl. by rewrite Hd.
Defined.

Lemma MarshalJSON_scalar_fields_witness :
  ∃ d, (MarshalJSON Sample.blank).1 = Some (JObject d)
       ∧ d !! "rtt" = Some (JNumber 0)
       ∧ d !! "snd_mss" = Some (JNumber 0).
Proof.
  destruct (MarshalJSON_scalar_fields Sample.blank _ Sample_blank_document)
    as (d & Hd & Hsnd & _ & Hrtt & _).
  exists d. split; [|split; [exact Hrtt|exact Hsnd]].
  rewrite Sample_blank_document. simpl. by rewrite Hd.
Defined.

Lemma MarshalJSON_block_members_witness :
  ∃ d, (MarshalJSON Sample.blank).1 = Some (JObject d)
       ∧ d !! "flow_ctl" = Some (JObject {[ "rcv_wnd" := JNumber 0 ]})
       ∧ d !! "cong_ctl" = None.
Proof.
  destruct (MarshalJSON_block_members Sample.blank _ Sample_blank_document)
    as (d & Hd & Hfc & Hcc & _).
  exists d. split; [|split; [exact Hfc|exact Hcc]].
  rewrite Sample_blank_document. simpl. by rewrite Hd.
Defined.

(** ** Buffers that parse to the same name *)

(** Two buffers parse to the same algorithm name exactly when they hold
    the same bytes: the nil buffer and the empty buffer are the only
    distinct buffers that [parseCCAlgorithm] identifies. *)
Theorem parseCCAlgorithm_same_name (b1 b2 : slice) :
  parseCCAlgorithm b1 = parseCCAlgorithm b2 ↔ elems b1 = elems b2.
Proof.
  unfold parseCCAlgorithm. split.
  - intros [= Heq].
    rewrite <-(list_byte_of_string_of_list_byte (elems b1)),
            <-(list_byte_of_string_of_list_byte (elems b2)).
    by rewrite Heq.
  - by intros ->.
Qed.

Lemma parseCCAlgorithm_same_name_witness :
  parseCCAlgorithm None = parseCCAlgorithm (Some [])
  ∧ elems (Some ["c"%byte]) = elems (Some ["c"%byte]).
Proof.
  split.
  - by apply parseCCAlgorithm_same_name.
  - by apply (parseCCAlgorithm_same_name (Some ["c"%byte]) (Some ["c"%byte])).
Defined.

(** * Calls on receivers and options that may be nil *)

(** ** Nil options *)

Lemma nil_elem_dec {A : Type} (l : list (option A)) : None ∈ l ∨ None ∉ l.
Proof.
  induction l as [|[a|] l [IH|IH]].
  - right. by intros ?%elem_of_nil.
  - left. by right.
  - right. by intros [[=]|?]%elem_of_cons.
  - left. by left.
  - left. by left.
Qed.

Lemma fmap_Some_omap_id {A : Type} (l : list (option A)) :
  None ∉ l → Some <$> omap id l = l.
Proof.
  induction l as [|[a|] l IH]; intros Hnil; [done| |].
  - simpl. f_equal. apply IH. intros Hin. apply Hnil. by right.
  - exfalso. apply Hnil. by left.
Qed.

Lemma omap_id_fmap_Some {A : Type} (l : list A) : omap id (Some <$> l) = l.
Proof. induction l as [|a l IH]; [done|]. simpl. f_equal. apply IH. Qed.

Lemma not_nil_fmap_Some {A : Type} (l : list A) : None ∉ Some <$> l.
Proof. by intros (a & [=] & _)%list_elem_of_fmap_1. Qed.

Section calls.
Context {Option SysInfo : Type}.
Context `{!OptionKind Option, !Encodable Option, !Encodable SysInfo}.

Implicit Types (gi : @Info.t (option Option) SysInfo).
Implicit Types (i : @Info.t Option SysInfo) (opts : list Option).

Local Abbreviation step :=
  (λ (acc : outcome (gmap string Option)) (opt : option Option),
     m ← acc;
     match opt with
     | None => Panics
     | Some opt => Returns (<[Kind_String opt := opt]> m)
     end).

Lemma collect_loop_Panics (l : list (option Option)) :
  foldl step Panics l = Panics.
Proof. induction l as [|o l IH]; [done|]. simpl. apply IH. Qed.

Lemma collect_loop_Some (m : gmap string Option) opts :
  foldl step (Returns m) (Some <$> opts)
  = Returns (foldl (λ m opt, <[Kind_String opt := opt]> m) m opts).
Proof.
  revert m. induction opts as [|opt opts IH]; intros m; [done|].
  simpl. apply IH.
Qed.

Lemma collect_loop_nil acc (l : list (option Option)) :
  None ∈ l → foldl step acc l = Panics.
Proof.
  revert acc. induction l as [|o l IH]; intros acc Hnil.
  - by apply elem_of_nil in Hnil.
  - simpl. apply elem_of_cons in Hnil as [<-|Hnil].
    + destruct acc; simpl; apply collect_loop_Panics.
    + by apply IH.
Qed.

(** On options none of which is nil, the loop builds the mapping
    [collect]. *)
Lemma collect_call_lift opts :
  collect_call (Some <$> opts) = Returns (collect opts).
Proof. apply collect_loop_Some. Qed.

(** On a nil option the loop panics. *)
Lemma collect_call_nil (l : list (option Option)) :
  None ∈ l → collect_call l = Panics.
Proof. apply collect_loop_nil. Qed.

Lemma raw_call_lift i : raw_call (lift i) = Returns (raw i).
Proof.
  unfold raw_call, raw; simpl.
  rewrite !length_fmap, !collect_call_lift.
  by destruct (0 <? length (Info.Options i))%nat,
              (0 <? length (Info.PeerOptions i))%nat.
Qed.

Lemma raw_call_nil gi :
  None ∈ Info.Options gi ∨ None ∈ Info.PeerOptions gi → raw_call gi = Panics.
Proof.
  assert (∀ l : list (option Option), None ∈ l → (0 <? length l)%nat = true)
    as Hlen.
  { intros [|o l] Hnil; [by apply elem_of_nil in Hnil|done]. }
  unfold raw_call; cbn zeta. intros [Hnil|Hnil].
  - by rewrite (Hlen _ Hnil), (collect_call_nil _ Hnil).
  - rewrite (Hlen _ Hnil), (collect_call_nil _ Hnil).
    destruct (0 <? length (Info.Options gi))%nat; [|done].
    by destruct (collect_call (Info.Options gi)).
Qed.

Lemma lift_non_nil gi :
  None ∉ Info.Options gi → None ∉ Info.PeerOptions gi →
  lift (non_nil gi) = gi.
Proof.
  intros Ho Hp. destruct gi; unfold lift, non_nil; simpl in *.
  by rewrite !fmap_Some_omap_id.
Qed.

Lemma non_nil_lift i : non_nil (lift i) = i.
Proof.
  destruct i; unfold lift, non_nil; simpl. by rewrite !omap_id_fmap_Some.
Qed.

Lemma MarshalJSON_call_lift i :
  MarshalJSON_call (Some (lift i)) = Returns (MarshalJSON i).
Proof. unfold MarshalJSON_call. by rewrite raw_call_lift. Qed.

Lemma MarshalJSON_call_non_nil gi :
  None ∉ Info.Options gi → None ∉ Info.PeerOptions gi →
  raw_call gi = Returns (raw (non_nil gi))
  ∧ MarshalJSON_call (Some gi) = Returns (MarshalJSON (non_nil gi)).
Proof.
  intros Ho Hp. rewrite <-(lift_non_nil gi Ho Hp) at 1 3.
  split; [apply raw_call_lift|apply MarshalJSON_call_lift].
Qed.

Lemma MarshalJSON_call_nil gi :
  None ∈ Info.Options gi ∨ None ∈ Info.PeerOptions gi →
  MarshalJSON_call (Some gi) = Panics.
Proof. intros Hnil. unfold MarshalJSON_call. by rewrite raw_call_nil. Qed.

Lemma non_nil_Options_nil gi :
  None ∉ Info.Options gi →
  Info.Options gi ≠ [] → Info.Options (non_nil gi) ≠ [].
Proof.
  intros Ho Hne Hnil. apply Hne.
  rewrite <-(fmap_Some_omap_id _ Ho). simpl in Hnil. by rewrite Hnil.
Qed.

Lemma non_nil_PeerOptions_nil gi :
  None ∉ Info.PeerOptions gi →
  Info.PeerOptions gi ≠ [] → Info.PeerOptions (non_nil gi) ≠ [].
Proof.
  intros Ho Hne Hnil. apply Hne.
  rewrite <-(fmap_Some_omap_id _ Ho). simpl in Hnil. by rewrite Hnil.
Qed.

End calls.

(** ** The claims on calls *)

(** C9, as the code has it: the two parsers return a nil error on every
    buffer; [CCAlgorithm.Marshal] returns a nil error on every name;
    [CCInfo.Marshal] returns the field [Raw] and a nil error on every
    receiver that is not nil; no call of it returns an error. *)
Theorem option_codecs_return (b : slice) (cci : CCInfo) (cca : CCAlgorithm)
    (recv : option CCInfo) :
  (parseCCInfo b).2 = None
  ∧ (parseCCAlgorithm b).2 = None
  ∧ CCInfo_Marshal_call (Some cci) = Returns (Raw cci, None)
  ∧ (Marshal cca).2 = None
  ∧ returned_error (CCInfo_Marshal_call recv) = None.
Proof.
  repeat split.
  - unfold Marshal, CCAlgorithm_Marshal. by case_decide.
  - by destruct recv.
Qed.

(** C9, as the spec words it, fails on one receiver: on the nil pointer,
    [CCInfo.Marshal] does not return. *)
Lemma CCInfo_Marshal_nil_receiver :
  CCInfo_Marshal_call None = Panics
  ∧ ¬ ∃ r, CCInfo_Marshal_call None = Returns r.
Proof. split; [done|]. by intros [r Hr]. Qed.

Section claims_on_calls.
Context {Option SysInfo : Type}.
Context `{!OptionKind Option, !Encodable Option, !Encodable SysInfo}.

Implicit Types (gi : @Info.t (option Option) SysInfo).
Implicit Types (i : @Info.t Option SysInfo) (opts : list Option).

(** C4, as the code has it: on an [Info] none of whose options is nil,
    [MarshalJSON] returns; a non-empty sequence of options is stored,
    and written, as a mapping keyed by kind name; the mapping has one
    entry for each kind name that occurs, and the entry of a name is the
    last option of that kind, a later option overwriting an earlier one
    of the same kind. *)
Theorem MarshalJSON_call_options_by_kind gi :
  None ∉ Info.Options gi → None ∉ Info.PeerOptions gi →
  raw_call gi = Returns (raw (non_nil gi))
  ∧ MarshalJSON_call (Some gi) = Returns (MarshalJSON (non_nil gi))
  ∧ (Info.Options gi ≠ [] →
     raw (non_nil gi) !! "opts"
     = Some (VOptions (collect (Info.Options (non_nil gi)))))
  ∧ (Info.PeerOptions gi ≠ [] →
     raw (non_nil gi) !! "peer_opts"
     = Some (VOptions (collect (Info.PeerOptions (non_nil gi)))))
  ∧ (∀ opts k, collect opts !! k = last_of_kind k opts)
  ∧ (∀ opts, dom (collect opts) = list_to_set (Kind_String <$> opts))
  ∧ (∀ opts1 opt opts2,
       (∀ o, o ∈ opts2 → Kind_String o ≠ Kind_String opt) →
       collect (opts1 ++ opt :: opts2) !! Kind_String opt = Some opt)
  ∧ ∀ doc, MarshalJSON_call (Some gi) = Returns (Some doc, None) →
      ∃ d, doc = JObject d
           ∧ (Info.Options gi ≠ [] →
              ∃ om, d !! "opts" = Some (JObject om)
                    ∧ ∀ k, om !! k
                           = last_of_kind k (Info.Options (non_nil gi))
                               ≫= (encoded ∘ to_json))
           ∧ (Info.PeerOptions gi ≠ [] →
              ∃ om, d !! "peer_opts" = Some (JObject om)
                    ∧ ∀ k, om !! k
                           = last_of_kind k (Info.PeerOptions (non_nil gi))
                               ≫= (encoded ∘ to_json)).
Proof.
  intros Ho Hp.
  destruct (MarshalJSON_call_non_nil gi Ho Hp) as [Hraw Hcall].
  destruct (MarshalJSON_options_by_kind (non_nil gi))
    as (Hopts & Hpeer & Hlast & Hdom & Hover & Hdoc).
  split; [done|]. split; [done|].
  split; [intros Hne; by apply Hopts, non_nil_Options_nil|].
  split; [intros Hne; by apply Hpeer, non_nil_PeerOptions_nil|].
  split; [done|]. split; [done|]. split; [done|].
  intros doc Hret. rewrite Hcall in Hret. injection Hret as Hret.
  destruct (Hdoc doc Hret) as (d & -> & Hdo & Hdp).
  exists d. split; [done|]. split.
  - intros Hne. by apply Hdo, non_nil_Options_nil.
  - intros Hne. by apply Hdp, non_nil_PeerOptions_nil.
Qed.

(** C7, as the code has it: the parsers and the [Marshal] methods of
    [CCInfo] and [CCAlgorithm] return no error; every error that
    [ParseCCAlgorithmInfo] returns is one of the two declared ones, as
    long as its platform function returns no other, which holds of the
    table of decoders; an error that [MarshalJSON] returns is neither of
    the two: it is the error of the JSON encoder, on an option or a
    platform block that cannot be encoded; on an [Info] none of whose
    options is nil, [MarshalJSON] returns a nil error whenever all of
    them can be encoded. *)
Theorem errors_returned_call :
  (∀ b, (parseCCInfo b).2 = None ∧ (parseCCAlgorithm b).2 = None)
  ∧ (∀ (recv : option CCInfo) (cca : CCAlgorithm),
       returned_error (CCInfo_Marshal_call recv) = None
       ∧ (Marshal cca).2 = None)
  ∧ (∀ (R : Type) (p : string → slice → option R * option error) name b,
       (∀ e, (p name b).2 = Some e → is_sentinel e = true) →
       ∀ e, (ParseCCAlgorithmInfo p name b).2 = Some e → is_sentinel e = true)
  ∧ (∀ (R : Type) (parsers : gmap string (slice → option R)) name b e,
       (ParseCCAlgorithmInfo (parseCCAlgorithmInfo parsers) name b).2 = Some e →
       is_sentinel e = true)
  ∧ (∀ recv e, returned_error (MarshalJSON_call recv) = Some e →
       ∃ gi msg, recv = Some gi
         ∧ e = jsonMarshalerError msg
         ∧ is_sentinel e = false
         ∧ ((∃ opt, Some opt ∈ (Info.Options gi ++ Info.PeerOptions gi)%list
                    ∧ to_json opt = inl msg)
            ∨ (∃ sys, Info.Sys gi = Some sys ∧ to_json sys = inl msg)))
  ∧ (∀ gi, None ∉ Info.Options gi → None ∉ Info.PeerOptions gi →
       (∀ opt, Some opt ∈ (Info.Options gi ++ Info.PeerOptions gi)%list →
               is_Some (encoded (to_json opt))) →
       (∀ sys, Info.Sys gi = Some sys → is_Some (encoded (to_json sys))) →
       ∃ doc, MarshalJSON_call (Some gi) = Returns (Some doc, None)).
Proof.
  split; [done|]. split.
  { intros recv cca. split; [by destruct recv|].
    unfold Marshal, CCAlgorithm_Marshal. by case_decide. }
  split.
  { intros R p name b Hp e He. apply Hp. by apply ParseCCAlgorithmInfo_err. }
  split.
  { intros R parsers name b e. unfold ParseCCAlgorithmInfo, parseCCAlgorithmInfo.
    destruct (parsers !! name) as [decode|]; [|by intros [= <-]].
    destruct (decode b); [done|by intros [= <-]]. }
  split.
  - intros [gi|] e He; [|done].
    destruct (nil_elem_dec (Info.Options gi)) as [Ho|Ho];
      [by rewrite MarshalJSON_call_nil in He by (by left)|].
    destruct (nil_elem_dec (Info.PeerOptions gi)) as [Hp|Hp];
      [by rewrite MarshalJSON_call_nil in He by (by right)|].
    destruct (MarshalJSON_call_non_nil gi Ho Hp) as [_ Hcall].
    rewrite Hcall in He. simpl in He.
    assert ((MarshalJSON (non_nil gi)).2 = Some e) as He'.
    { by destruct (MarshalJSON (non_nil gi)). }
    destruct (errors_returned (non_nil gi)) as (_ & _ & _ & Herr & _).
    destruct (Herr e He') as (msg & -> & Hmsg).
    exists gi, msg. split; [done|]. split; [done|]. split; [done|].
    destruct Hmsg as [(opt & Hin & Hopt)|Hsys]; [left|by right].
    exists opt. split; [|done].
    rewrite <-(lift_non_nil gi Ho Hp). simpl. rewrite <-fmap_app.
    by apply list_elem_of_fmap_2.
  - intros gi Ho Hp Hopts Hsys.
    destruct (MarshalJSON_call_non_nil gi Ho Hp) as [_ Hcall].
    destruct (errors_returned (non_nil gi)) as (_ & _ & _ & _ & Hok).
    destruct Hok as [doc Hdoc].
    + intros opt Hin. apply Hopts.
      rewrite <-(lift_non_nil gi Ho Hp). simpl. rewrite <-fmap_app.
      by apply list_elem_of_fmap_2.
    + done.
    + exists doc. by rewrite Hcall, Hdoc.
Qed.

(** [MarshalJSON] panics exactly on a nil receiver and on an [Info] one
    of whose options is nil.  Otherwise it returns, and it returns a
    document with a nil error exactly when the options that the mappings
    keep, and the platform block if there is one, can be encoded: an
    option overwritten by a later one of its kind is never encoded, so
    it cannot make the call fail. *)
Theorem MarshalJSON_call_outcome gi :
  MarshalJSON_call (@None (@Info.t (option Option) SysInfo)) = Panics
  ∧ (MarshalJSON_call (Some gi) = Panics
     ↔ None ∈ Info.Options gi ∨ None ∈ Info.PeerOptions gi)
  ∧ ((∃ doc, MarshalJSON_call (Some gi) = Returns (Some doc, None))
     ↔ (None ∉ Info.Options gi) ∧ (None ∉ Info.PeerOptions gi)
       ∧ (∀ k opt, last_of_kind k (Info.Options (non_nil gi)) = Some opt →
                   is_Some (encoded (to_json opt)))
       ∧ (∀ k opt, last_of_kind k (Info.PeerOptions (non_nil gi)) = Some opt →
                   is_Some (encoded (to_json opt)))
       ∧ (∀ sys, Info.Sys gi = Some sys → is_Some (encoded (to_json sys)))).
Proof.
  split; [done|].
  destruct (nil_elem_dec (Info.Options gi)) as [Ho|Ho].
  { rewrite MarshalJSON_call_nil by (by left). split.
    - split; [by left|done].
    - split; [by intros [doc ?]|by intros [? _]]. }
  destruct (nil_elem_dec (Info.PeerOptions gi)) as [Hp|Hp].
  { rewrite MarshalJSON_call_nil by (by right). split.
    - split; [by right|done].
    - split; [by intros [doc ?]|by intros (_ & ? & _)]. }
  destruct (MarshalJSON_call_non_nil gi Ho Hp) as [_ Hcall]. rewrite Hcall.
  split.
  - split; [done|by intros [?|?]].
  - pose proof (MarshalJSON_succeeds_iff (non_nil gi)) as Hiff. split.
    + intros [doc [= Hdoc]]. split; [done|]. split; [done|].
      apply Hiff. by exists doc.
    + intros (_ & _ & Hkept). apply Hiff in Hkept as [doc Hdoc].
      exists doc. by rewrite Hdoc.
Qed.

End claims_on_calls.

(** ** The claims on calls, on the sample values *)

Lemma Sample_established_call :
  MarshalJSON_call (Some (lift Sample.established))
  = Returns (Some (default JNull (MarshalJSON Sample.established).1), None).
Proof.
  rewrite MarshalJSON_call_lift.
  exact (f_equal Returns Sample_established_document).
Defined.

(** Two options of the kind "wscale": the later one is kept. *)
Lemma MarshalJSON_call_options_by_kind_witness :
  ∃ d om, MarshalJSON_call (Some (lift Sample.established))
          = Returns (Some (JObject d), None)
          ∧ d !! "opts" = Some (JObject om)
          ∧ om !! "wscale" = Some (JNumber 9)
          ∧ om !! "sack" = Some (JBool true)
          ∧ om !! "mss" = None.
Proof.
  destruct (MarshalJSON_call_options_by_kind (lift Sample.established)
              (not_nil_fmap_Some _) (not_nil_fmap_Some _))
    as (_ & _ & _ & _ & _ & _ & _ & Hdoc).
  destruct (Hdoc _ Sample_established_call) as (d & Hd & Ho & _).
  destruct Ho as (om & Hopts & Hom); [done|].
  exists d, om. split; [|split; [exact Hopts|]].
  - rewrite Sample_established_call. by rewrite Hd.
  - rewrite !Hom. clear. vm_compute. repeat split.
Defined.

(** C4, as the spec words it, fails: the sequence of options of
    [Sample.with_nil] is not empty, and the call panics on its nil
    element instead of writing a mapping. *)
Lemma MarshalJSON_call_nil_option_panics :
  Info.Options Sample.with_nil ≠ []
  ∧ MarshalJSON_call (Some Sample.with_nil) = Panics.
Proof. split; [done|reflexivity]. Qed.

Lemma errors_returned_call_witness :
  (∃ doc, MarshalJSON_call (Some (lift Sample.established))
          = Returns (Some doc, None))
  ∧ (ParseCCAlgorithmInfo (parseCCAlgorithmInfo Sample.parsers) "bbr" None).2
    = Some errBufferTooShort
  ∧ is_sentinel errBufferTooShort = true.
Proof.
  destruct (errors_returned_call (Option:=Sample.option_value)
              (SysInfo:=Sample.sys_info)) as (_ & _ & _ & Hreg & _ & Hok).
  split; [|split; [reflexivity|]].
  - apply Hok.
    + apply not_nil_fmap_Some.
    + apply not_nil_fmap_Some.
    + intros opt Hin. simpl in Hin.
      repeat (apply elem_of_cons in Hin as [[= ->]|Hin]; [by eexists|]).
      by apply elem_of_nil in Hin.
    + intros sys _. by eexists.
  - apply (Hreg _ Sample.parsers "bbr" None). reflexivity.
Defined.

(** The first option of [Sample.shadowed] cannot be encoded, and the
    call returns a document all the same; on [Sample.with_nil] the call
    panics. *)
Lemma MarshalJSON_call_outcome_witness :
  to_json Sample.broken_wscale = inl "json: error calling MarshalJSON"
  ∧ (∃ doc, MarshalJSON_call (Some (lift Sample.shadowed))
            = Returns (Some doc, None))
  ∧ MarshalJSON_call (Some Sample.with_nil) = Panics.
Proof.
  split; [reflexivity|]. split.
  - apply (MarshalJSON_call_outcome (lift Sample.shadowed)).
    split; [apply not_nil_fmap_Some|]. split; [apply not_nil_fmap_Some|].
    rewrite non_nil_lift. split; [|split].
    + intros k opt Hlast. unfold last_of_kind in Hlast.
      destruct (decide ("wscale" = k)) as [<-|Hne].
      * vm_compute in Hlast. injection Hlast as <-. by eexists.
      * change (Info.Options Sample.shadowed)
          with [Sample.broken_wscale; Sample.wscale 9] in Hlast.
        by rewrite !filter_cons_False, filter_nil in Hlast by done.
    + intros k opt Hlast. done.
    + intros sys _. by eexists.
  - apply (MarshalJSON_call_outcome Sample.with_nil). left. right. left.
Defined.
